(** * Supermarket sales dashboard: the data pipeline of [supermarket_eda.py]

    The dashboard loads a table of sales, narrows it with the sidebar
    filters and hands the narrowed table to the methods of [Dashboard], each
    of which reduces it to the figures of one chart or message.  This file
    embeds that pipeline: the table is a list of rows, a pandas column is the
    list of one field, a missing cell ([NaN], [NaT]) is [None], an exception
    is the [Raise] branch of [result].

    Amounts are whole numbers (a number of the smallest currency unit) and
    ratings are rationals; sums and means are first given exactly.  What the
    64-bit numbers of the program make of a sum ([int64] wraps around,
    [float64] rounds) is modelled apart, in the part on machine numbers, and
    the rounding of [float64] on fractions is not part of the model.  Text is
    ASCII: the letter case of [str.title] and [str.lower] is that of the 52
    ASCII letters.

    The pandas and numpy operations the program calls are modelled after
    their documented behaviour, under the names they have in the source. *)

From Stdlib Require Import ZArith QArith Reals Lra Lia String Ascii.
From Stdlib Require OrderedTypeEx.
From stdpp Require Import base option list sorting gmap strings.

Local Open Scope Z_scope.

(** ** Exceptions *)

Inductive exn : Type :=
| ValueError
| KeyError
| AttributeError.

Inductive result (A : Type) : Type :=
| Ok (a : A)
| Raise (e : exn).
Arguments Ok {A} a.
Arguments Raise {A} e.

#[global] Instance result_ret : MRet result := λ A a, Ok a.
#[global] Instance result_bind : MBind result := λ A B f m,
  match m with
  | Ok a => f a
  | Raise e => Raise e
  end.

Definition raises {A} (m : result A) : Prop := ∃ e, m = Raise e.

(** ** The table *)

(** A row of the table.  [D] and [T] are the types of the [date] and
    [total] cells: text as read from the file, values once loaded. *)
Record row_of (D T : Type) : Type := mkRow {
  city : option string;
  product_line : option string;
  gender : option string;
  customer_type : option string;
  payment : option string;
  date : D;
  unit_price : option Z;
  quantity : option Z;
  total : T;
  rating : option Q
}.
Arguments mkRow {D T}.
Arguments city {D T}.
Arguments product_line {D T}.
Arguments gender {D T}.
Arguments customer_type {D T}.
Arguments payment {D T}.
Arguments date {D T}.
Arguments unit_price {D T}.
Arguments quantity {D T}.
Arguments total {D T}.
Arguments rating {D T}.

Abbreviation Row := (row_of (option Z) (option Z)).

(** [has_date] records whether the table has a [date] column; without one
    the [date] field of its rows is never read. *)
Record DataFrame : Type := mkDataFrame {
  has_date : bool;
  rows : list Row
}.

Definition with_rows (df : DataFrame) (l : list Row) : DataFrame :=
  {| has_date := has_date df; rows := l |}.

Definition column {A} (f : Row → A) (df : DataFrame) : list A := f <$> rows df.

(** ** Boolean masks *)

(** [df[col].isin(values)] *)
Definition isin (col values : list (option string)) : list bool :=
  (λ v, bool_decide (v ∈ values)) <$> col.

(** [df['date'] >= t] and [df['date'] <= t]; a comparison with [NaT] is
    false. *)
Definition date_ge (col : list (option Z)) (t : Z) : list bool :=
  (λ d, match d with Some x => bool_decide (t ≤ x) | None => false end) <$> col.
Definition date_le (col : list (option Z)) (t : Z) : list bool :=
  (λ d, match d with Some x => bool_decide (x ≤ t) | None => false end) <$> col.

(** [m1 & m2] *)
Definition mask_and (m1 m2 : list bool) : list bool := zip_with andb m1 m2.

(** [df[mask]]: a new table with the rows whose mask entry is true. *)
Fixpoint getitem_mask {A} (l : list A) (mask : list bool) : list A :=
  match l, mask with
  | x :: l', b :: mask' =>
      if b then x :: getitem_mask l' mask' else getitem_mask l' mask'
  | _, _ => []
  end.

(** ** The sidebar selection and the filter of [main] *)

Record Selection : Type := mkSelection {
  start_date : Z;
  end_date : Z;
  city_filter : list (option string);
  product_filter : list (option string);
  gender_filter : list (option string)
}.

(** Line 150: [df = df[(df['date'] >= start) & (df['date'] <= end)]], under
    the guard ['date' in df.columns]. *)
Definition date_step (S : Selection) (df : DataFrame) : DataFrame :=
  if has_date df then
    with_rows df
      (getitem_mask (rows df)
         (mask_and (date_ge (column date df) (start_date S))
                   (date_le (column date df) (end_date S))))
  else df.

(** Lines 156-160: the three [isin] masks joined with [&]. *)
Definition category_step (S : Selection) (df : DataFrame) : DataFrame :=
  with_rows df
    (getitem_mask (rows df)
       (mask_and
          (mask_and (isin (column city df) (city_filter S))
                    (isin (column product_line df) (product_filter S)))
          (isin (column gender df) (gender_filter S)))).

Definition apply_filters (S : Selection) (df : DataFrame) : DataFrame :=
  category_step S (date_step S df).

(** The filter as the specification words it, row by row. *)
Definition in_range (S : Selection) (r : Row) : Prop :=
  ∃ d, date r = Some d ∧ start_date S ≤ d ≤ end_date S.

Definition selected (S : Selection) (with_date : bool) (r : Row) : Prop :=
  city r ∈ city_filter S ∧
  product_line r ∈ product_filter S ∧
  gender r ∈ gender_filter S ∧
  (with_date = true → in_range S r).

#[global] Instance in_range_dec S r : Decision (in_range S r).
Proof.
  unfold in_range. destruct (date r) as [d|].
  - destruct (decide (start_date S ≤ d ≤ end_date S)) as [H|H].
    + left. eauto.
    + right. intros (d' & [= <-] & H'). auto.
  - right. intros (d' & [=] & _).
Defined.

#[global] Instance selected_dec S b r : Decision (selected S b r).
Proof. unfold selected. apply _. Defined.

(** ** The object store

    [main] rebinds the name [df] to the result of each indexing step.  The
    tables live in a store of objects; [df[mask]] allocates a new object and
    writes to none. *)

Definition obj := positive.
Abbreviation store := (gmap obj DataFrame).

Definition State (A : Type) : Type := store → A * store.

#[global] Instance state_ret : MRet State := λ A a σ, (a, σ).
#[global] Instance state_bind : MBind State := λ A B f m σ,
  let '(a, σ') := m σ in f a σ'.

Definition alloc (df : DataFrame) : State obj :=
  λ σ, let l := fresh (dom σ) in (l, <[l := df]> σ).

Definition deref (l : obj) : State (option DataFrame) :=
  λ σ, (σ !! l, σ).

(** Lines 146-160 on the store: [df] is the object returned by [load_data],
    the result is the object bound to [filtered]. *)
Definition main_filter (S : Selection) (df : obj) : State (option obj) :=
  o ← deref df;
  match o with
  | None => mret None
  | Some d =>
      df1 ← (if has_date d then alloc (date_step S d) else mret df);
      o1 ← deref df1;
      match o1 with
      | None => mret None
      | Some d1 => filtered ← alloc (category_step S d1); mret (Some filtered)
      end
  end.

(** ** Reductions of a column *)

(** [Series.sum()], exactly: missing cells are skipped, the empty sum is
    0. *)
Definition sum_skipna (col : list (option Z)) : Z :=
  foldr (λ c acc, default 0 c + acc) 0 col.

Definition sum_total (l : list Row) : Z := sum_skipna (total <$> l).

Definition Qsum (l : list Q) : Q := foldr Qplus (0#1)%Q l.

(** [Series.mean()], exactly: the mean of the cells present, [NaN] when
    there are none. *)
Definition mean_skipna (col : list (option Q)) : option Q :=
  match omap (λ c, c) col with
  | [] => None
  | v :: vs => Some (Qred (Qsum (v :: vs) / inject_Z (Z.of_nat (length (v :: vs)))))
  end.

(** ** Series: labelled values *)

Abbreviation Series := (list (string * Z)).

(** Adding one row to the groups, which are kept in ascending order of
    their label. *)
Fixpoint group_add (k : string) (v : Z) (acc : Series) : Series :=
  match acc with
  | [] => [(k, v)]
  | (k', v') :: acc' =>
      match String.compare k k' with
      | Eq => (k', v' + v) :: acc'
      | Lt => (k, v) :: acc
      | Gt => (k', v') :: group_add k v acc'
      end
  end.

(** [df.groupby(key)['total'].sum()]: one entry per label, labels ascending,
    rows without a label left out, missing totals skipped. *)
Definition groupby_sum (key : Row → option string) (l : list Row) : Series :=
  foldl (λ acc r,
           match key r with
           | Some k => group_add k (default 0 (total r)) acc
           | None => acc
           end) [] l.

(** [Series.idxmax()]: the label of the first largest value; an empty series
    raises [ValueError]. *)
Fixpoint argmax_from (best : string * Z) (s : Series) : string :=
  match s with
  | [] => best.1
  | (k, v) :: s' =>
      if bool_decide (best.2 < v) then argmax_from (k, v) s'
      else argmax_from best s'
  end.

Definition idxmax (s : Series) : result string :=
  match s with
  | [] => Raise ValueError
  | x :: s' => Ok (argmax_from x s')
  end.

(** [Series.max()]: [NaN] on an empty series. *)
Definition series_max (s : Series) : option Z :=
  match s with
  | [] => None
  | x :: s' => Some (foldl Z.max x.2 (snd <$> s'))
  end.

(** ** Sorting

    [sort_values] is called with its default [kind='quicksort'], which
    promises a sorted rearrangement and nothing about the order of equal
    keys.  [ArgSort] is that promise. *)

Class ArgSort : Type := {
  argsort : ∀ A : Type, (A → Z) → list A → list A;
  argsort_Permutation : ∀ A (key : A → Z) (l : list A), argsort A key l ≡ₚ l;
  argsort_Sorted : ∀ A (key : A → Z) (l : list A),
      Sorted (λ x y, key x ≤ key y) (argsort A key l)
}.
Arguments argsort {_ A} key l.

(** pandas' [nargsort]: the entries with a key are sorted, reversed before
    and after the sort when descending, and the entries without a key are
    put last. *)
Definition nargsort `{ArgSort} {A} (key : A → option Z) (ascending : bool)
    (l : list A) : list A :=
  let non_nans := filter (λ x, is_Some (key x)) l in
  let nans := filter (λ x, key x = None) l in
  let k x := default 0 (key x) in
  (if ascending then argsort k non_nans
   else reverse (argsort k (reverse non_nans))) ++ nans.

(** [Series.sort_values()] *)
Definition sort_values `{ArgSort} (s : Series) : Series :=
  nargsort (λ e, Some e.2) true s.

(** [df.sort_values('date', ascending=False)]; [KeyError] without the
    column. *)
Definition sort_values_date_desc `{ArgSort} (df : DataFrame) : result DataFrame :=
  if has_date df then Ok (with_rows df (nargsort date false (rows df)))
  else Raise KeyError.

(** [df.head(n)] *)
Definition head (n : nat) (df : DataFrame) : DataFrame :=
  with_rows df (take n (rows df)).

(** [Series.unique()]: the distinct values in order of first appearance. *)
Definition unique {A} `{EqDecision A} (l : list A) : list A :=
  reverse (remove_dups (reverse l)).

(** [Series.value_counts()]: the labels present with their number of
    occurrences, sorted by descending count. *)
Definition value_counts `{ArgSort} (col : list (option string)) : Series :=
  let labels := unique (omap (λ c, c) col) in
  let counts := (λ k, (k, Z.of_nat (length (filter (λ c, c = Some k) col)))) <$> labels in
  nargsort (λ e, Some e.2) false counts.

(** ** Text: [str.title()]

    Titlecase over ASCII letters: a letter that follows a letter is
    lowered, any other letter is raised; other characters are kept and end
    the word. *)

Definition is_upper (c : ascii) : bool :=
  let n := nat_of_ascii c in (65 <=? n)%nat && (n <=? 90)%nat.
Definition is_lower (c : ascii) : bool :=
  let n := nat_of_ascii c in (97 <=? n)%nat && (n <=? 122)%nat.
Definition is_cased (c : ascii) : bool := is_upper c || is_lower c.
Definition to_upper (c : ascii) : ascii :=
  if is_lower c then ascii_of_nat (nat_of_ascii c - 32) else c.
Definition to_lower (c : ascii) : ascii :=
  if is_upper c then ascii_of_nat (nat_of_ascii c + 32) else c.

Fixpoint title_from (previous_is_cased : bool) (s : string) : string :=
  match s with
  | EmptyString => EmptyString
  | String c s' =>
      String (if previous_is_cased then to_lower c else to_upper c)
             (title_from (is_cased c) s')
  end.

Definition title (s : string) : string := title_from false s.

(** [Series.str.title()]: missing cells stay missing. *)
Definition str_title (col : list (option string)) : list (option string) :=
  (λ c : option string, title <$> c) <$> col.

(** ** The methods of [Dashboard] *)

Section dashboard.
Context `{ArgSort}.

(** [show_kpis]: the three metrics. *)
Definition show_kpis (df : DataFrame) : Z * option Q * nat :=
  (sum_skipna (column total df), mean_skipna (column rating df), length (rows df)).

(** [sales_by_product]: [grouped] feeds the bar chart and then the pie
    chart. *)
Record product_charts : Type := mkProductCharts {
  barh : Series;
  pie : Series
}.

Definition sales_by_product (df : DataFrame) : product_charts :=
  let grouped := sort_values (groupby_sum product_line (rows df)) in
  {| barh := grouped; pie := grouped |}.

(** [sales_by_city]: the series of the pie chart. *)
Definition sales_by_city (df : DataFrame) : Series :=
  groupby_sum city (rows df).

(** [gender_comparison]: the series of the bar plot. *)
Definition gender_comparison (df : DataFrame) : Series :=
  groupby_sum gender (rows df).

(** [customer_type_breakdown]: the series of the bar chart. *)
Definition customer_type_breakdown (df : DataFrame) : Series :=
  groupby_sum customer_type (rows df).

(** [payment_distribution]: the series of the pie chart. *)
Definition payment_distribution (df : DataFrame) : Series :=
  value_counts (column payment df).

(** Lines 106-107: the total of the 30 latest records. *)
Definition last_30_total (df : DataFrame) : result Z :=
  sorted ← sort_values_date_desc df;
  let latest := head 30 sorted in
  mret (sum_skipna (column total latest)).

(** [quick_insights]: the figures of the four messages, computed in the
    order of the source. *)
Record insights : Type := mkInsights {
  top_city : string;
  top_payment : string;
  top_product : string;
  top_product_sales : option Z;
  last_30 : Z
}.

Definition quick_insights (df : DataFrame) : result insights :=
  top_city ← idxmax (groupby_sum city (rows df));
  top_payment ← idxmax (value_counts (column payment df));
  top_product ← idxmax (groupby_sum product_line (rows df));
  let top_product_sales := series_max (groupby_sum product_line (rows df)) in
  last_30_total ← last_30_total df;
  mret {| top_city := top_city; top_payment := top_payment;
          top_product := title top_product;
          top_product_sales := top_product_sales;
          last_30 := last_30_total |}.
End dashboard.

(** [search_city_and_product]: the messages it shows, in order, first on
    columns of text. *)
Inductive message : Type :=
| success (subject : string) (amount : Z)
| warning (text : string).

Definition lookup_total (key : Row → option string) (not_found : string)
    (df : DataFrame) (name : string) : list message :=
  if bool_decide (name = EmptyString) then []
  else if bool_decide (Some name ∈ unique (str_title (column key df))) then
    let sub := getitem_mask (rows df)
                 ((λ c, bool_decide (c = Some name)) <$> str_title (column key df)) in
    [success name (sum_total sub)]
  else [warning not_found].


(** The two definitions above are the lookup on columns of text.  Whether
    a column is one is its dtype, which pandas keeps with the column and a
    row filter does not change: [read_csv] makes a column in which it finds
    text an [object] column, and a column of numbers only, or without any
    value, a column of numbers. *)
Inductive number_dtype : Type := int64 | float64.
Inductive dtype : Type := object | number (n : number_dtype).

Record text_dtypes : Type := mkTextDtypes {
  city_dtype : dtype;
  product_line_dtype : dtype
}.

(** [Series.str]: the accessor of the text methods, which a column of
    numbers does not have. *)
Definition str (dt : dtype) : result unit :=
  match dt with
  | object => Ok ()
  | number _ => Raise AttributeError
  end.

(** One field of the search: nothing is looked at when the field is left
    empty; otherwise the column is reached through [.str] first. *)
Definition lookup_total_str (dt : dtype) (key : Row → option string) (not_found : string)
    (df : DataFrame) (name : string) : result (list message) :=
  if bool_decide (name = EmptyString) then Ok []
  else _ ← str dt; Ok (lookup_total key not_found df name).

(** [search_city_and_product] with the dtypes of its two columns: the city
    is looked up before the product line, and an error ends the method. *)
Definition search_city_and_product_str (dts : text_dtypes) (df : DataFrame)
    (city_input product_input : string) : result (list message) :=
  found_city ← lookup_total_str (city_dtype dts) city "City not found." df
                  (title city_input);
  found_product ← lookup_total_str (product_line_dtype dts) product_line
                     "Product not found." df (title product_input);
  Ok (found_city ++ found_product).

(** ** Loading

    [read_csv] hands over text for the cells it could not type.  The two
    pandas converters of text are the fields of [Parsers]: each says which
    texts it accepts and what they denote. *)

Inductive raw_cell : Type :=
| RawNum (z : Z)
| RawStr (s : string)
| RawNaN.

Abbreviation RawRow := (row_of (option string) raw_cell).

Record RawFrame : Type := mkRawFrame {
  raw_has_date : bool;
  raw_rows : list RawRow
}.

Class Parsers : Type := {
  str_to_number : string → option Z;
  str_to_datetime : string → option Z
}.

Definition set_cells {D T D' T'} (r : row_of D T) (d : D') (t : T') : row_of D' T' :=
  mkRow (city r) (product_line r) (gender r) (customer_type r) (payment r)
        d (unit_price r) (quantity r) t (rating r).

Section load.
Context `{Parsers}.

(** [pd.to_numeric(..., errors='coerce')] on one cell. *)
Definition to_numeric (c : raw_cell) : option Z :=
  match c with
  | RawNum z => Some z
  | RawStr s => str_to_number s
  | RawNaN => None
  end.

(** [pd.to_datetime] on one cell: a text that is no date raises. *)
Definition to_datetime (c : option string) : result (option Z) :=
  match c with
  | None => Ok None
  | Some s =>
      match str_to_datetime s with
      | Some t => Ok (Some t)
      | None => Raise ValueError
      end
  end.

Definition load_data (raw : RawFrame) : result DataFrame :=
  dates ← (if raw_has_date raw then mapM to_datetime (date <$> raw_rows raw)
           else Ok ((λ _, None) <$> raw_rows raw));
  let totals := to_numeric <$> (total <$> raw_rows raw) in
  mret {| has_date := raw_has_date raw;
          rows := zip_with (λ r c, set_cells r c.1 c.2)
                           (raw_rows raw) (zip dates totals) |}.
End load.

(** A total cell is non-numeric when it is a text the converter rejects. *)
Definition non_numeric `{Parsers} (c : raw_cell) : Prop :=
  ∃ s, c = RawStr s ∧ str_to_number s = None.

(** ** Correlation

    [DataFrame.corr()] over the numeric columns, in exact real arithmetic:
    each pair of columns is correlated over the rows where both cells are
    present; the lower triangle is computed and mirrored. *)

Section correlation.
Local Open Scope R_scope.

Definition complete_pairs (x y : list (option R)) : list (R * R) :=
  omap (λ p, match p with
             | (Some a, Some b) => Some (a, b)
             | _ => None
             end) (zip x y).

Definition Rsum (l : list R) : R := foldr Rplus 0 l.
Definition Rmean (l : list R) : R := Rsum l / INR (length l).

(** Sum of squared deviations from the mean. *)
Definition ssqdm (l : list R) : R :=
  Rsum ((λ a, (a - Rmean l) * (a - Rmean l)) <$> l).

Definition clip (v : R) : R :=
  if Rlt_dec 1 v then 1 else if Rlt_dec v (-1) then -1 else v.

Definition pearson (x y : list (option R)) : option R :=
  let obs := complete_pairs x y in
  let xs := fst <$> obs in
  let ys := snd <$> obs in
  match obs with
  | [] => None
  | _ :: _ =>
      let covxy := Rsum ((λ p, (p.1 - Rmean xs) * (p.2 - Rmean ys)) <$> obs) in
      let divisor := sqrt (ssqdm xs * ssqdm ys) in
      if Req_dec_T divisor 0 then None else Some (clip (covxy / divisor))
  end.

Definition col_at (cols : list (list (option R))) (i : nat) : list (option R) :=
  default [] (cols !! i).

Definition corr (cols : list (list (option R))) : list (list (option R)) :=
  (λ xi, (λ yi, pearson (col_at cols (xi `max` yi)) (col_at cols (xi `min` yi)))
           <$> seq 0 (length cols))
    <$> seq 0 (length cols).

(** The cells present in a column, and whether they vary. *)
Definition present (x : list (option R)) : list R := omap (λ c, c) x.
Definition nonzero_variance (x : list (option R)) : Prop := ssqdm (present x) ≠ 0.

(** [df.select_dtypes(include=np.number)] *)
Definition select_dtypes_number (df : DataFrame) : list (list (option R)) :=
  [ (λ c : option Z, IZR <$> c) <$> column unit_price df;
    (λ c : option Z, IZR <$> c) <$> column quantity df;
    (λ c : option Z, IZR <$> c) <$> column total df;
    (λ c : option Q, Q2R <$> c) <$> column rating df ].

Definition correlation_matrix (df : DataFrame) : list (list (option R)) :=
  corr (select_dtypes_number df).

Definition entry (m : list (list (option R))) (i j : nat) : option (option R) :=
  row ← m !! i; row !! j.
End correlation.

(** ** Two sorts that keep the promise of [ArgSort]

    Sorting by insertion keeps equal keys in their order of arrival.  The
    sort the program runs, numpy's quicksort, comes after it and does not. *)

Fixpoint insert_sorted {A} (R : relation A) `{!∀ x y, Decision (R x y)}
    (x : A) (l : list A) : list A :=
  match l with
  | [] => [x]
  | y :: l' => if decide (R x y) then x :: y :: l' else y :: insert_sorted R x l'
  end.

Definition insertion_sort {A} (R : relation A) `{!∀ x y, Decision (R x y)}
    (l : list A) : list A :=
  foldr (insert_sorted R) [] l.


Lemma insert_sorted_Permutation {A} (R : relation A) `{!∀ x y, Decision (R x y)}
    (x : A) (l : list A) :
  insert_sorted R x l ≡ₚ x :: l.
Proof.
  induction l as [|y l IH]; [done|]. cbn. case_decide; [done|].
  rewrite IH. apply perm_swap.
Qed.

Lemma insertion_sort_Permutation {A} (R : relation A) `{!∀ x y, Decision (R x y)}
    (l : list A) :
  insertion_sort R l ≡ₚ l.
Proof.
  induction l as [|x l IH]; [done|]. cbn.
  by rewrite insert_sorted_Permutation, IH.
Qed.

Lemma insert_sorted_Sorted {A} (R : relation A) `{!∀ x y, Decision (R x y)}
    `{!Total R} (x : A) (l : list A) :
  Sorted R l → Sorted R (insert_sorted R x l).
Proof.
  induction 1 as [|y l Hl IH Hhd]; cbn.
  - repeat constructor.
  - case_decide as Hxy.
    + repeat constructor; done.
    + constructor; [done|].
      pose proof (_ : Total R) as HT. destruct (HT x y) as [?|Hyx]; [done|].
      destruct Hhd as [|z l' Hyz]; cbn.
      * by constructor.
      * case_decide; by constructor.
Qed.

Lemma insertion_sort_Sorted {A} (R : relation A) `{!∀ x y, Decision (R x y)}
    `{!Total R} (l : list A) :
  Sorted R (insertion_sort R l).
Proof.
  induction l as [|x l IH]; cbn; [constructor|]. by apply insert_sorted_Sorted.
Qed.

Definition key_le {A} (key : A → Z) : relation A := λ x y, key x ≤ key y.

#[global] Instance key_le_dec {A} (key : A → Z) x y : Decision (key_le key x y).
Proof. unfold key_le. apply _. Defined.

#[global] Instance key_le_total {A} (key : A → Z) : Total (key_le key).
Proof. intros x y. unfold key_le. lia. Qed.

#[global] Instance key_le_trans {A} (key : A → Z) : Transitive (key_le key).
Proof. intros x y z. unfold key_le. lia. Qed.

Definition key_ge {A} (key : A → Z) : relation A := λ x y, key y ≤ key x.

#[global] Instance key_ge_dec {A} (key : A → Z) x y : Decision (key_ge key x y).
Proof. unfold key_ge. apply _. Defined.

Definition stable_sort : ArgSort := {|
  argsort A key l := insertion_sort (key_le key) l;
  argsort_Permutation A key l := insertion_sort_Permutation (key_le key) l;
  argsort_Sorted A key l := insertion_sort_Sorted (key_le key) l
|}.

(** *** numpy's [argsort(kind='quicksort')]

    The default kind sorts an array [tosort] of positions by the keys [v]
    they point at, with an introsort: a range of more than 16 positions is
    partitioned around the median of its first, middle and last key, the
    larger part is put on a stack and the smaller one taken up; a range of
    17 positions or fewer is sorted by insertion; a range reached when the
    allowance of [2 * log2 n] partitions is used up is sorted by heapsort.
    Ranges are given by their first and last position, [pl] and [pr]. *)

























(** ** Orders and totals used to state the properties *)

(** [Series.sum()] and the part of it that carries one label. *)
Definition series_sum (s : Series) : Z := foldr (λ e acc, e.2 + acc) 0 s.
Definition series_total_for (k : string) (s : Series) : Z :=
  series_sum (filter (λ e, e.1 = k) s).

(** Ascending by value, and strictly ascending by label. *)
Definition value_le : relation (string * Z) := λ a b, a.2 ≤ b.2.
Definition label_lt : relation (string * Z) := λ a b, String.compare a.1 b.1 = Lt.

(** Latest date first, rows without a date last. *)
Definition date_desc : relation Row := λ r1 r2,
  match date r1, date r2 with
  | Some a, Some b => b ≤ a
  | Some _, None => True
  | None, Some _ => False
  | None, None => True
  end.

#[global] Instance date_desc_dec r1 r2 : Decision (date_desc r1 r2).
Proof. unfold date_desc. destruct (date r1), (date r2); apply _. Defined.

#[global] Instance date_desc_total : Total date_desc.
Proof. intros r1 r2. unfold date_desc. destruct (date r1), (date r2); try tauto. lia. Qed.

#[global] Instance date_desc_trans : Transitive date_desc.
Proof.
  intros r1 r2 r3. unfold date_desc.
  destruct (date r1), (date r2), (date r3); try tauto. lia.
Qed.


(** The lookup as the specification words it: a row matches when the
    titlecase of its value is the titlecase of the entered name; the answer
    is the total of the matching rows, or the not-found message. *)
Definition matches (key : Row → option string) (name : string) (r : Row) : Prop :=
  title <$> key r = Some name.

#[global] Instance matches_dec key name r : Decision (matches key name r).
Proof. unfold matches. apply _. Defined.

Definition lookup_answer (key : Row → option string) (not_found : string)
    (df : DataFrame) (name : string) : message :=
  if decide (Exists (matches key name) (rows df))
  then success name (sum_total (filter (matches key name) (rows df)))
  else warning not_found.

(** ** The example table of the specification *)

Definition sale (c p : string) (t : Z) : Row :=
  mkRow (Some c) (Some p) None None None None None None (Some t) None.

Definition example_df : DataFrame :=
  {| has_date := false;
     rows := [sale "Yangon" "Health" 100; sale "Mandalay" "Food" 50;
              sale "Yangon" "Food" 25] |}.



(** Two sales that differ in every grouping column; the larger total comes
    under the smaller labels. *)
Definition chart_df : DataFrame :=
  {| has_date := false;
     rows := [mkRow (Some "Mandalay") (Some "Food") (Some "Female") (Some "Member")
                    None None None None (Some 100) None;
              mkRow (Some "Yangon") (Some "Health") (Some "Male") (Some "Normal")
                    None None None None (Some 50) None] |}.

Definition empty_df : DataFrame := {| has_date := true; rows := [] |}.

(** A converter of text for the examples: unsigned decimal integers as
    numbers, and as day numbers. *)
Definition digit_of (c : ascii) : option Z :=
  let n := nat_of_ascii c in
  if (48 <=? n)%nat && (n <=? 57)%nat then Some (Z.of_nat (n - 48)) else None.

Fixpoint digits_from (acc : Z) (s : string) : option Z :=
  match s with
  | EmptyString => Some acc
  | String c s' =>
      match digit_of c with
      | Some d => digits_from (10 * acc + d) s'
      | None => None
      end
  end.

Definition decimal (s : string) : option Z :=
  match s with
  | EmptyString => None
  | _ => digits_from 0 s
  end.

Definition decimal_parsers : Parsers :=
  {| str_to_number := decimal; str_to_datetime := decimal |}.

Definition raw_sale (c d : string) (t : raw_cell) : RawRow :=
  mkRow (Some c) None None None None (Some d) None None t None.

Definition raw_example : RawFrame :=
  {| raw_has_date := true;
     raw_rows := [raw_sale "Yangon" "1" (RawStr "100");
                  raw_sale "Mandalay" "2" (RawStr "abc");
                  raw_sale "Yangon" "3" (RawStr "25")] |}.

(** The date cells of a table can all be read as dates. *)
Definition dates_readable `{Parsers} (raw : RawFrame) : Prop :=
  raw_has_date raw = true →
  Forall (λ r : RawRow, ∀ s, date r = Some s → is_Some (str_to_datetime s)) (raw_rows raw).

(** ** Further notions used to state properties *)

Definition Zsum (l : list Z) : Z := foldr Z.add 0 l.

(** Descending by value. *)
Definition value_ge : relation (string * Z) := λ a b, b.2 ≤ a.2.

(** How often a label occurs in a column. *)
Definition occurrences (k : string) (col : list (option string)) : Z :=
  Z.of_nat (length (filter (λ c, c = Some k) col)).

(** Some row has a value in the column [key]. *)
Definition some_present (key : Row → option string) (df : DataFrame) : Prop :=
  Exists (λ r, is_Some (key r)) (rows df).

#[global] Instance some_present_dec key df : Decision (some_present key df).
Proof. unfold some_present. apply _. Defined.

(** The total of the rows that carry the value [k] in the column [key]. *)
Definition total_of (key : Row → option string) (k : string) (l : list Row) : Z :=
  sum_total (filter (λ r, key r = Some k) l).

(** Three dated sales with payment methods. *)
Definition insight_df : DataFrame :=
  {| has_date := true;
     rows := [mkRow (Some "Yangon") (Some "health") None None (Some "Cash")
                    (Some 3) None None (Some 100) None;
              mkRow (Some "Mandalay") (Some "food") None None (Some "Card")
                    (Some 5) None None (Some 50) None;
              mkRow (Some "Yangon") (Some "food") None None (Some "Card")
                    (Some 4) None None (Some 25) None] |}.

(** One selection allows whatever another allows. *)
Definition narrower (S S' : Selection) : Prop :=
  city_filter S ⊆ city_filter S' ∧
  product_filter S ⊆ product_filter S' ∧
  gender_filter S ⊆ gender_filter S' ∧
  start_date S' ≤ start_date S ∧ end_date S ≤ end_date S'.

(** A selection that allows every value and every date of a table: what the
    sidebar offers by default (all distinct values, earliest to latest
    date). *)
Definition covers (S : Selection) (df : DataFrame) : Prop :=
  Forall (λ r : Row,
            city r ∈ city_filter S ∧ product_line r ∈ product_filter S ∧
            gender r ∈ gender_filter S ∧
            ∀ d, date r = Some d → start_date S ≤ d ≤ end_date S) (rows df).

(** Dated sales in two cities, one sale without a date. *)
Definition dated_df : DataFrame :=
  {| has_date := true;
     rows := [mkRow (Some "Yangon") (Some "Food") (Some "Male") None None
                    (Some 10) None None (Some 100) None;
              mkRow (Some "Mandalay") (Some "Food") (Some "Female") None None
                    None None None (Some 50) None;
              mkRow (Some "Mandalay") (Some "Health") (Some "Female") None None
                    (Some 20) None None (Some 25) None] |}.

Definition all_of_dated_df : Selection :=
  mkSelection 10 20 [Some "Yangon"; Some "Mandalay"] [Some "Food"; Some "Health"]
              [Some "Male"; Some "Female"].

Definition mandalay_only : Selection :=
  mkSelection 10 20 [Some "Mandalay"] [Some "Food"; Some "Health"]
              [Some "Male"; Some "Female"].

(** ** Column names (line 21 of the source)

    [df.columns.str.strip().str.lower().str.replace(' ', '_')] over ASCII
    text: the blanks of both ends are removed, letters are lowered and
    every remaining space becomes an underscore. *)

(** [str.isspace] on one ASCII character: tab, line feed, vertical tab,
    form feed, carriage return, the four separators 28 to 31, and space. *)
Definition is_space (c : ascii) : bool :=
  let n := nat_of_ascii c in
  ((9 <=? n)%nat && (n <=? 13)%nat) || ((28 <=? n)%nat && (n <=? 32)%nat).

Fixpoint lstrip (s : string) : string :=
  match s with
  | EmptyString => EmptyString
  | String c s' => if is_space c then lstrip s' else s
  end.

Fixpoint rstrip (s : string) : string :=
  match s with
  | EmptyString => EmptyString
  | String c s' =>
      match rstrip s' with
      | EmptyString => if is_space c then EmptyString else String c EmptyString
      | t => String c t
      end
  end.

Definition strip (s : string) : string := rstrip (lstrip s).

Fixpoint map_chars (f : ascii → ascii) (s : string) : string :=
  match s with
  | EmptyString => EmptyString
  | String c s' => String (f c) (map_chars f s')
  end.

Definition lower (s : string) : string := map_chars to_lower s.

Definition space_to_underscore (c : ascii) : ascii :=
  if Ascii.eqb c " " then "_"%char else c.

Definition normalize_column (s : string) : string :=
  map_chars space_to_underscore (lower (strip s)).

(** ['date' in df.columns] after the renaming. *)
Definition has_column (name : string) (header : list string) : bool :=
  bool_decide (name ∈ normalize_column <$> header).

(** A text that does not begin with a blank. *)
Definition starts_clean (s : string) : Prop :=
  match s with
  | EmptyString => True
  | String c _ => is_space c = false
  end.

(** A row dated at the instant [t] or later. *)
Definition dated_from (t : Z) (r : Row) : Prop := ∃ d, date r = Some d ∧ t ≤ d.

#[global] Instance dated_from_dec t r : Decision (dated_from t r).
Proof.
  unfold dated_from. destruct (date r) as [d|].
  - destruct (decide (t ≤ d)); [left; eauto|right]. by intros (? & [= <-] & ?).
  - right. by intros (? & [=] & _).
Defined.


(** Two columns with the same missing cells, the second being
    [a * u + b] wherever the first is [u]. *)
Definition affine_of (a b : R) (x y : list (option R)) : Prop :=
  y = (λ c : option R, (λ u, a * u + b)%R <$> c) <$> x.

(** Unit price 1 and 2, total always twice the price plus one; the
    quantity never varies. *)
Definition affine_df : DataFrame :=
  {| has_date := false;
     rows := [mkRow None None None None None None (Some 1) (Some 7) (Some 3) None;
              mkRow None None None None None None (Some 2) (Some 7) (Some 5) None] |}.

(** ** Machine numbers

    The sums above are exact.  The program adds the cells of [total] in the
    arithmetic of the dtype of the column, which [pd.to_numeric] makes
    [int64] when every cell of the file is a whole number and [float64] as
    soon as one is missing.  A sum of [int64] wraps around at 64 bits. *)

Definition wrap64 (z : Z) : Z := (z + 2 ^ 63) `mod` 2 ^ 64 - 2 ^ 63.
Definition int64_add (x y : Z) : Z := wrap64 (x + y).
Definition int64_sum (l : list Z) : Z := foldl int64_add 0 l.

(** The sums of [float64] cells: [float64_sum] is [Series.sum()] and
    [float64_group_sum] the sum of one group of [groupby].  In which order
    they add, and with which compensation, is left open.  What is kept is
    that a sum of whole numbers whose absolute values add up to 2^53 at
    most only meets whole numbers of 53 bits, which [float64] holds
    exactly. *)
Class Float64 : Type := {
  float64_sum : list Z → Z;
  float64_group_sum : list Z → Z;
  float64_sum_exact : ∀ l, Zsum (Z.abs <$> l) ≤ 2 ^ 53 → float64_sum l = Zsum l;
  float64_group_sum_exact : ∀ l,
      Zsum (Z.abs <$> l) ≤ 2 ^ 53 → float64_group_sum l = Zsum l
}.

(** [Series.sum()] and the sum of one group, in the arithmetic of the
    dtype; missing cells are skipped. *)
Definition sum_as `{Float64} (dt : number_dtype) (col : list (option Z)) : Z :=
  match dt with
  | int64 => int64_sum (omap (λ c, c) col)
  | float64 => float64_sum (omap (λ c, c) col)
  end.

Definition group_sum_as `{Float64} (dt : number_dtype) (col : list (option Z)) : Z :=
  match dt with
  | int64 => int64_sum (omap (λ c, c) col)
  | float64 => float64_group_sum (omap (λ c, c) col)
  end.

(** [df.groupby(key)['total'].sum()] in the arithmetic of the dtype: under
    every label, the sum of the cells of its rows in the order of the
    rows. *)
Definition groupby_sum_as `{Float64} (dt : number_dtype) (key : Row → option string)
    (l : list Row) : Series :=
  (λ e, (e.1, group_sum_as dt (total <$> filter (λ r, key r = Some e.1) l)))
    <$> groupby_sum key l.

(** How far the sums of a column are exact: the absolute values of its
    cells add up to less than 2^63 in [int64], to 2^53 at most in
    [float64]. *)
Definition sum_limit (dt : number_dtype) : Z :=
  match dt with
  | int64 => 2 ^ 63 - 1
  | float64 => 2 ^ 53
  end.

Definition fits (dt : number_dtype) (col : list (option Z)) : Prop :=
  Zsum (Z.abs <$> omap (λ c, c) col) ≤ sum_limit dt.

(** An addition of [float64] on whole numbers, for the examples: the sum
    is rounded to 53 bits, to the nearest and on a tie to the even one; and
    the sum of a list from left to right. *)
Definition round_float64 (z : Z) : Z :=
  if bool_decide (Z.abs z ≤ 2 ^ 53) then z
  else
    let e := Z.log2 (Z.abs z) - 52 in
    let q := Z.abs z `div` 2 ^ e in
    let r := Z.abs z `mod` 2 ^ e in
    let up := bool_decide (2 ^ (e - 1) < r) || (bool_decide (r = 2 ^ (e - 1)) && Z.odd q) in
    Z.sgn z * ((if up then q + 1 else q) * 2 ^ e).

Definition float64_add (x y : Z) : Z := round_float64 (x + y).

Lemma foldl_float64_add_exact (l : list Z) (acc : Z) :
  Z.abs acc + Zsum (Z.abs <$> l) ≤ 2 ^ 53 → foldl float64_add acc l = acc + Zsum l.
Proof.
  revert acc. induction l as [|x l IH]; intros acc Hfits.
  - cbn. lia.
  - change (Zsum (Z.abs <$> x :: l)) with (Z.abs x + Zsum (Z.abs <$> l)) in Hfits.
    change (Zsum (x :: l)) with (x + Zsum l).
    change (foldl float64_add acc (x :: l)) with (foldl float64_add (float64_add acc x) l).
    assert (0 ≤ Zsum (Z.abs <$> l)).
    { clear. induction l as [|y l IH]; [done|].
      change (Zsum (Z.abs <$> y :: l)) with (Z.abs y + Zsum (Z.abs <$> l)). lia. }
    assert (Hstep : float64_add acc x = acc + x).
    { unfold float64_add, round_float64. rewrite bool_decide_eq_true_2; lia. }
    rewrite Hstep, IH; lia.
Qed.

Definition left_to_right : Float64 := {|
  float64_sum l := foldl float64_add 0 l;
  float64_group_sum l := foldl float64_add 0 l;
  float64_sum_exact l Hfits := foldl_float64_add_exact l 0 Hfits;
  float64_group_sum_exact l Hfits := foldl_float64_add_exact l 0 Hfits
|}.

(** Two sales whose totals add up to 2^63, one more than [int64] holds. *)
Definition overflow_df : DataFrame :=
  {| has_date := false;
     rows := [sale "Yangon" "Food" 9223372036854775807; sale "Yangon" "Health" 1] |}.

(** ** Text of ASCII characters *)

Definition ascii_text (s : string) : bool :=
  forallb (λ c, (nat_of_ascii c <? 128)%nat) (list_ascii_of_string s).

Definition ascii_column (key : Row → option string) (df : DataFrame) : bool :=
  forallb (λ r, from_option ascii_text true (key r)) (rows df).

(** One field of the search as the specification words it, and the answer
    of a column that is not one of text. *)
Definition field_answer (dt : dtype) (key : Row → option string) (not_found : string)
    (df : DataFrame) (input : string) : result (list message) :=
  if decide (input = EmptyString) then Ok []
  else match dt with
       | object => Ok [lookup_answer key not_found df (title input)]
       | number _ => Raise AttributeError
       end.

Definition text_columns : text_dtypes :=
  {| city_dtype := object; product_line_dtype := object |}.

(** A table read from a file whose city cells are all empty: the column is
    one of numbers, without a value. *)
Definition no_city_df : DataFrame :=
  {| has_date := false;
     rows := [mkRow None (Some "Food") None None None None None None (Some 10) None] |}.

Definition no_city_dtypes : text_dtypes :=
  {| city_dtype := number float64; product_line_dtype := object |}.

(** * Properties *)

(** ** Masks and row predicates *)

Lemma filter_all {A} (P : A → Prop) `{!∀ x, Decision (P x)} (l : list A) :
  Forall P l → filter P l = l.
Proof.
  induction 1 as [|x l Hx _ IH]; [done|]. by rewrite filter_cons_True, IH.
Qed.

Lemma filter_none {A} (P : A → Prop) `{!∀ x, Decision (P x)} (l : list A) :
  Forall (λ x, ¬ P x) l → filter P l = [].
Proof.
  induction 1 as [|x l Hx _ IH]; [done|]. by rewrite filter_cons_False.
Qed.

Lemma getitem_mask_fmap {A} (p : A → bool) (l : list A) :
  getitem_mask l (p <$> l) = filter (λ x, p x) l.
Proof.
  induction l as [|x l IH]; [done|].
  cbn [fmap list_fmap getitem_mask]. rewrite filter_cons, IH.
  destruct (p x); by case_decide.
Qed.

Lemma mask_and_fmap {A} (p q : A → bool) (l : list A) :
  mask_and (p <$> l) (q <$> l) = (λ x, p x && q x) <$> l.
Proof. induction l as [|x l IH]; [done|]. unfold mask_and in *. cbn. by rewrite IH. Qed.

Lemma column_fmap {A B} (f : Row → A) (g : A → B) (df : DataFrame) :
  g <$> column f df = (λ r, g (f r)) <$> rows df.
Proof. unfold column. by rewrite <- list_fmap_compose. Qed.

Lemma date_step_rows S df :
  rows (date_step S df) =
  filter (λ r, has_date df = true → in_range S r) (rows df).
Proof.
  unfold date_step. destruct (has_date df) eqn:Hd; cbn [rows with_rows].
  - unfold date_ge, date_le. rewrite !column_fmap, mask_and_fmap, getitem_mask_fmap.
    apply list_filter_iff. intros r. unfold in_range.
    destruct (date r) as [d|]; cbn.
    + rewrite andb_True, !bool_decide_spec. split.
      * intros [? ?] _. exists d. split; [done|lia].
      * intros Hr. destruct (Hr eq_refl) as (d' & [= <-] & ?). lia.
    + split; [done|]. intros Hr. by destruct (Hr eq_refl) as (d' & [=] & _).
  - symmetry. apply filter_all, Forall_forall. by intros r _ [=].
Qed.

Lemma category_step_rows S df :
  rows (category_step S df) =
  filter (λ r, city r ∈ city_filter S ∧ product_line r ∈ product_filter S ∧
               gender r ∈ gender_filter S) (rows df).
Proof.
  unfold category_step, isin. cbn [rows with_rows].
  rewrite !column_fmap, !mask_and_fmap, getitem_mask_fmap.
  apply list_filter_iff. intros r.
  rewrite !andb_True, !bool_decide_spec. tauto.
Qed.

Lemma apply_filters_rows S df :
  rows (apply_filters S df) = filter (selected S (has_date df)) (rows df).
Proof.
  unfold apply_filters. rewrite category_step_rows, date_step_rows, list_filter_filter.
  apply list_filter_iff. intros r. unfold selected. tauto.
Qed.

Lemma apply_filters_has_date S df : has_date (apply_filters S df) = has_date df.
Proof.
  unfold apply_filters, category_step, date_step, with_rows.
  by destruct (has_date df) eqn:E; cbn.
Qed.

Lemma DataFrame_eq (d1 d2 : DataFrame) :
  has_date d1 = has_date d2 → rows d1 = rows d2 → d1 = d2.
Proof. destruct d1, d2; cbn; congruence. Qed.

(** C2. The filter returns exactly the rows whose city, product line and
    gender are among the selected values and, when the table has a date
    column, whose date lies between the start and the end, both included;
    an empty selection on any of the three dimensions gives an empty table,
    not an error. *)
Theorem filter_exact (S : Selection) (df : DataFrame) :
  rows (apply_filters S df) = filter (selected S (has_date df)) (rows df) ∧
  (∀ r, r ∈ rows (apply_filters S df) ↔ r ∈ rows df ∧ selected S (has_date df) r) ∧
  has_date (apply_filters S df) = has_date df ∧
  rows (apply_filters (mkSelection (start_date S) (end_date S) []
                         (product_filter S) (gender_filter S)) df) = [] ∧
  rows (apply_filters (mkSelection (start_date S) (end_date S) (city_filter S)
                         [] (gender_filter S)) df) = [] ∧
  rows (apply_filters (mkSelection (start_date S) (end_date S) (city_filter S)
                         (product_filter S) []) df) = [].
Proof.
  split_and!.
  - apply apply_filters_rows.
  - intros r. rewrite apply_filters_rows, list_elem_of_filter. split; intros [? ?]; done.
  - apply apply_filters_has_date.
  - rewrite apply_filters_rows. apply filter_none, Forall_forall.
    intros r _ (Hc & _). cbn in Hc. by apply not_elem_of_nil in Hc.
  - rewrite apply_filters_rows. apply filter_none, Forall_forall.
    intros r _ (_ & Hp & _). cbn in Hp. by apply not_elem_of_nil in Hp.
  - rewrite apply_filters_rows. apply filter_none, Forall_forall.
    intros r _ (_ & _ & Hg & _). cbn in Hg. by apply not_elem_of_nil in Hg.
Qed.

(** C9. Filtering a filtered table again with the same selection changes
    nothing. *)
Theorem filter_idempotent (S : Selection) (df : DataFrame) :
  apply_filters S (apply_filters S df) = apply_filters S df.
Proof.
  apply DataFrame_eq.
  - by rewrite !apply_filters_has_date.
  - rewrite (apply_filters_rows S (apply_filters S df)), apply_filters_has_date.
    rewrite apply_filters_rows, list_filter_filter.
    apply list_filter_iff. intros r. tauto.
Qed.

(** ** The filter on the store *)

Lemma alloc_spec (d : DataFrame) (σ : store) :
  ∃ l, alloc d σ = (l, <[l := d]> σ) ∧ σ !! l = None.
Proof.
  exists (fresh (dom σ)). split; [done|].
  apply not_elem_of_dom, is_fresh.
Qed.

Lemma insert_fresh_preserves (σ : store) (l k : obj) (d e : DataFrame) :
  σ !! l = None → σ !! k = Some e → <[l := d]> σ !! k = Some e.
Proof. intros Hl Hk. rewrite lookup_insert_ne; [done|]. congruence. Qed.

Lemma date_step_no_date S df : has_date df = false → date_step S df = df.
Proof. unfold date_step. by intros ->. Qed.

(** C8. Filtering writes to no existing table: after the filter of [main]
    has run, the loaded table and every other object of the store are as
    before, the result is a new object, and its rows are rows of the loaded
    table in their original relative order. *)
Theorem main_filter_frame (S : Selection) (σ : store) (df : obj) (D : DataFrame) :
  σ !! df = Some D →
  ∃ filtered σ',
    main_filter S df σ = (Some filtered, σ') ∧
    σ' !! df = Some D ∧
    (∀ k d, σ !! k = Some d → σ' !! k = Some d) ∧
    σ !! filtered = None ∧
    σ' !! filtered = Some (apply_filters S D) ∧
    rows (apply_filters S D) `sublist_of` rows D.
Proof.
  intros HD.
  assert (Hsub : rows (apply_filters S D) `sublist_of` rows D).
  { rewrite apply_filters_rows. apply sublist_filter. }
  unfold main_filter, mbind, state_bind, deref, mret, state_ret. rewrite HD.
  destruct (has_date D) eqn:Hd.
  - destruct (alloc_spec (date_step S D) σ) as (l1 & -> & Hl1).
    rewrite lookup_insert_eq.
    destruct (alloc_spec (category_step S (date_step S D)) (<[l1 := date_step S D]> σ))
      as (l2 & -> & Hl2).
    exists l2, (<[l2 := category_step S (date_step S D)]> (<[l1 := date_step S D]> σ)).
    assert (Hl2σ : σ !! l2 = None).
    { destruct (σ !! l2) as [e|] eqn:E; [|done].
      rewrite (insert_fresh_preserves σ l1 l2 _ e) in Hl2; done. }
    assert (Hkeep : ∀ k d, σ !! k = Some d →
              <[l2 := category_step S (date_step S D)]> (<[l1 := date_step S D]> σ) !! k
              = Some d).
    { intros k d Hk. apply insert_fresh_preserves; [done|].
      by apply insert_fresh_preserves. }
    split_and!; [done|by apply Hkeep|done|done|by rewrite lookup_insert_eq|done].
  - rewrite HD.
    destruct (alloc_spec (category_step S D) σ) as (l2 & -> & Hl2).
    exists l2, (<[l2 := category_step S D]> σ).
    assert (Hkeep : ∀ k d, σ !! k = Some d → <[l2 := category_step S D]> σ !! k = Some d).
    { intros k d Hk. by apply insert_fresh_preserves. }
    split_and!; [done|by apply Hkeep|done|done| |done].
    rewrite lookup_insert_eq. unfold apply_filters. by rewrite date_step_no_date.
Qed.

Lemma main_filter_frame_witness :
  ({[1%positive := example_df]} : store) !! 1%positive = Some example_df ∧
  ∃ filtered σ',
    main_filter (mkSelection 0 0 [Some "Mandalay"] [Some "Food"] [None]) 1%positive
      {[1%positive := example_df]} = (Some filtered, σ') ∧
    σ' !! 1%positive = Some example_df.
Proof.
  assert (Hload : ({[1%positive := example_df]} : store) !! 1%positive = Some example_df)
    by (vm_compute; reflexivity).
  split; [exact Hload|].
  destruct (main_filter_frame (mkSelection 0 0 [Some "Mandalay"] [Some "Food"] [None])
              {[1%positive := example_df]} 1%positive example_df Hload)
    as (filtered & σ' & Hrun & Hsame & _).
  exists filtered, σ'. split; [exact Hrun|exact Hsame].
Defined.

(** ** Sums *)

Lemma sum_skipna_app (l1 l2 : list (option Z)) :
  sum_skipna (l1 ++ l2) = sum_skipna l1 + sum_skipna l2.
Proof. unfold sum_skipna. induction l1 as [|c l1 IH]; cbn; [done|]. rewrite IH. lia. Qed.



Lemma sum_total_cons (r : Row) (l : list Row) :
  sum_total (r :: l) = default 0 (total r) + sum_total l.
Proof. done. Qed.

Lemma sum_total_app (l1 l2 : list Row) :
  sum_total (l1 ++ l2) = sum_total l1 + sum_total l2.
Proof. unfold sum_total. by rewrite fmap_app, sum_skipna_app. Qed.

(** ** Grouping *)

Definition group_step (key : Row → option string) (acc : Series) (r : Row) : Series :=
  match key r with
  | Some k => group_add k (default 0 (total r)) acc
  | None => acc
  end.

Lemma groupby_sum_snoc key l r :
  groupby_sum key (l ++ [r]) = group_step key (groupby_sum key l) r.
Proof. unfold groupby_sum. by rewrite foldl_app. Qed.

Lemma series_sum_group_add k v acc :
  series_sum (group_add k v acc) = series_sum acc + v.
Proof.
  unfold series_sum.
  induction acc as [|[k' v'] acc IH]; cbn; [lia|].
  destruct (String.compare k k'); cbn; lia.
Qed.

Lemma series_sum_groupby key l :
  series_sum (groupby_sum key l) =
  sum_total (filter (λ r, is_Some (key r)) l).
Proof.
  induction l as [|r l IH] using rev_ind; [done|].
  rewrite groupby_sum_snoc, filter_app, sum_total_app, <- IH.
  unfold group_step. rewrite filter_cons, filter_nil.
  destruct (key r) as [k|]; case_decide as Hk.
  - rewrite series_sum_group_add, sum_total_cons. cbn. lia.
  - destruct Hk. eauto.
  - by destruct Hk.
  - cbn. lia.
Qed.

Lemma series_total_for_cons k e s :
  series_total_for k (e :: s) =
  (if decide (e.1 = k) then e.2 else 0) + series_total_for k s.
Proof.
  unfold series_total_for. rewrite filter_cons.
  case_decide; unfold series_sum; cbn; lia.
Qed.

Lemma series_total_for_group_add k k' v acc :
  series_total_for k (group_add k' v acc) =
  series_total_for k acc + (if decide (k' = k) then v else 0).
Proof.
  induction acc as [|[k0 v0] acc IH]; cbn [group_add].
  - rewrite series_total_for_cons. cbn. unfold series_total_for, series_sum. cbn. lia.
  - destruct (String.compare k' k0) eqn:Hc.
    + apply String.compare_eq_iff in Hc as ->.
      rewrite !series_total_for_cons. cbn. repeat case_decide; lia.
    + rewrite !series_total_for_cons. cbn. repeat case_decide; lia.
    + rewrite !series_total_for_cons, IH. lia.
Qed.

Lemma series_total_for_groupby key k l :
  series_total_for k (groupby_sum key l) =
  sum_total (filter (λ r, key r = Some k) l).
Proof.
  induction l as [|r l IH] using rev_ind; [done|].
  rewrite groupby_sum_snoc, filter_app, sum_total_app, <- IH.
  unfold group_step. rewrite filter_cons, filter_nil.
  destruct (key r) as [k'|].
  - rewrite series_total_for_group_add.
    repeat case_decide; simplify_eq; rewrite ?sum_total_cons; cbn; lia.
  - case_decide; [done|]. cbn. lia.
Qed.

Lemma group_add_HdRel k v e acc :
  label_lt e (k, v) → HdRel label_lt e acc → HdRel label_lt e (group_add k v acc).
Proof.
  intros He Hhd. destruct Hhd as [|[k' v'] acc Hlt]; cbn.
  - by constructor.
  - destruct (String.compare k k'); by constructor.
Qed.

Lemma group_add_Sorted k v acc :
  Sorted label_lt acc → Sorted label_lt (group_add k v acc).
Proof.
  induction 1 as [|[k' v'] acc Hs IH Hhd]; cbn.
  - repeat constructor.
  - destruct (String.compare k k') eqn:Hc.
    + constructor; [done|]. destruct Hhd; by constructor.
    + repeat constructor; done.
    + constructor; [done|]. apply group_add_HdRel; [|done].
      unfold label_lt. cbn. rewrite String.compare_antisym, Hc. done.
Qed.

Lemma groupby_sum_Sorted key l : Sorted label_lt (groupby_sum key l).
Proof.
  induction l as [|r l IH] using rev_ind; [constructor|].
  rewrite groupby_sum_snoc. unfold group_step.
  destruct (key r); [by apply group_add_Sorted|done].
Qed.

(** ** Sorting *)

Section sorting_facts.
Context `{ArgSort}.

Lemma nargsort_Permutation {A} (key : A → option Z) (ascending : bool) (l : list A) :
  nargsort key ascending l ≡ₚ l.
Proof.
  unfold nargsort.
  assert (Hnan : filter (λ x, key x = None) l = filter (λ x, ¬ is_Some (key x)) l).
  { apply list_filter_iff. intros x. by rewrite eq_None_not_Some. }
  rewrite Hnan.
  etransitivity; [|apply (filter_app_complement (λ x, is_Some (key x)) l)].
  apply Permutation_app; [|done].
  destruct ascending.
  - apply argsort_Permutation.
  - by rewrite reverse_Permutation, argsort_Permutation, reverse_Permutation.
Qed.

Lemma nargsort_all_keyed {A} (key : A → option Z) (ascending : bool) (l : list A) :
  Forall (λ x, is_Some (key x)) l →
  nargsort key ascending l =
  if ascending then argsort (λ x, default 0 (key x)) l
  else reverse (argsort (λ x, default 0 (key x)) (reverse l)).
Proof.
  intros Hall. unfold nargsort.
  rewrite (filter_all _ _ Hall), filter_none, app_nil_r; [done|].
  eapply Forall_impl; [exact Hall|]. intros x [v Hv]. congruence.
Qed.

Lemma sort_values_Permutation (s : Series) : sort_values s ≡ₚ s.
Proof. apply nargsort_Permutation. Qed.

Lemma sort_values_Sorted (s : Series) : Sorted value_le (sort_values s).
Proof.
  unfold sort_values. rewrite nargsort_all_keyed.
  - apply (argsort_Sorted _ (λ x : string * Z, default 0 (Some x.2))).
  - apply Forall_forall. intros x _. by eexists.
Qed.




End sorting_facts.


Lemma series_sum_Permutation (s1 s2 : Series) : s1 ≡ₚ s2 → series_sum s1 = series_sum s2.
Proof. unfold series_sum. induction 1; cbn; lia. Qed.

Lemma series_total_for_Permutation k (s1 s2 : Series) :
  s1 ≡ₚ s2 → series_total_for k s1 = series_total_for k s2.
Proof. intros Hp. unfold series_total_for. apply series_sum_Permutation. by rewrite Hp. Qed.

Lemma Sorted_value_le_inv a b s : Sorted value_le (a :: b :: s) → a.2 ≤ b.2.
Proof. intros Hs. inv Hs. by inv H2. Qed.

(** ** The series behind the charts *)

(** C4 (as the code has it). The product-line series is sorted ascending by
    its sums, and that one sorted series feeds both the bar chart and the
    pie chart of the product lines.  The series by city (pie), by gender
    (bar) and by customer type (bar) are not sorted by their sums: they come
    in ascending order of the category label.  Each series holds, for every
    category, the sum of [total] over the rows of that category. *)
Theorem chart_series_order `{ArgSort} (df : DataFrame) :
  (barh (sales_by_product df) ≡ₚ groupby_sum product_line (rows df) ∧
   Sorted value_le (barh (sales_by_product df)) ∧
   pie (sales_by_product df) = barh (sales_by_product df)) ∧
  (Sorted label_lt (sales_by_city df) ∧
   Sorted label_lt (gender_comparison df) ∧
   Sorted label_lt (customer_type_breakdown df)) ∧
  (∀ k,
     series_total_for k (barh (sales_by_product df)) =
       sum_total (filter (λ r, product_line r = Some k) (rows df)) ∧
     series_total_for k (sales_by_city df) =
       sum_total (filter (λ r, city r = Some k) (rows df)) ∧
     series_total_for k (gender_comparison df) =
       sum_total (filter (λ r, gender r = Some k) (rows df)) ∧
     series_total_for k (customer_type_breakdown df) =
       sum_total (filter (λ r, customer_type r = Some k) (rows df))).
Proof.
  split_and!.
  - apply sort_values_Permutation.
  - apply sort_values_Sorted.
  - done.
  - apply groupby_sum_Sorted.
  - apply groupby_sum_Sorted.
  - apply groupby_sum_Sorted.
  - intros k. split_and!; try apply series_total_for_groupby.
    cbn [sales_by_product barh].
    rewrite (series_total_for_Permutation _ _ _ (sort_values_Permutation _)).
    apply series_total_for_groupby.
Qed.

(** C4 (as stated) fails: on two sales, 100 for a female member buying food
    and 50 for a male normal customer buying health products, the bar series
    by gender and by customer type are not ascending by sum, and the pie
    series of the product lines is not the unsorted grouping. *)
Lemma chart_series_counterexample :
  ¬ Sorted value_le (gender_comparison chart_df) ∧
  ¬ Sorted value_le (customer_type_breakdown chart_df) ∧
  pie (@sales_by_product stable_sort chart_df) ≠ groupby_sum product_line (rows chart_df).
Proof.
  split_and!.
  - intros Hs. apply Sorted_value_le_inv in Hs. cbn in Hs. lia.
  - intros Hs. apply Sorted_value_le_inv in Hs. cbn in Hs. lia.
  - vm_compute. discriminate.
Qed.

(** ** The tail window *)




(** *** What a stable sort would give

    Had the sort kept equal dates in their order of arrival, the code would
    compute the tail window as the specification words it. *)

Section stability.
Context {A : Type} (R : relation A) `{!∀ x y, Decision (R x y)}.






Context `{!Total R, !Transitive R}.



End stability.







(** ** The empty selection *)

Lemma value_counts_nil `{ArgSort} : value_counts [] = [].
Proof.
  unfold value_counts, nargsort, unique. cbn.
  apply Permutation_nil_r. rewrite app_nil_r, reverse_Permutation.
  apply argsort_Permutation.
Qed.

(** C1 (as the code has it). On a filtered table without rows the three
    metrics are computed without raising: the sum of total is 0, the count
    is 0 and the mean of rating is the undefined value NaN, with no separate
    signal for the absence of data.  The correlation matrix is computed
    without raising and every entry of it is undefined.  The three
    extractions of a top label (city, payment, product line) have no
    handling of the empty case: each raises [ValueError], and so does
    [quick_insights]. *)
Theorem empty_selection_behaviour `{ArgSort} (df : DataFrame) :
  rows df = [] →
  show_kpis df = (0, None, 0%nat) ∧
  idxmax (groupby_sum city (rows df)) = Raise ValueError ∧
  idxmax (value_counts (column payment df)) = Raise ValueError ∧
  idxmax (groupby_sum product_line (rows df)) = Raise ValueError ∧
  quick_insights df = Raise ValueError ∧
  length (correlation_matrix df) = 4%nat ∧
  (∀ i j, (i < 4)%nat → (j < 4)%nat → entry (correlation_matrix df) i j = Some None).
Proof.
  intros Hrows.
  assert (Hpay : value_counts (column payment df) = []).
  { unfold column. rewrite Hrows. apply value_counts_nil. }
  split_and!.
  - unfold show_kpis, column. by rewrite Hrows.
  - by rewrite Hrows.
  - by rewrite Hpay.
  - by rewrite Hrows.
  - unfold quick_insights. by rewrite Hrows.
  - done.
  - intros i j Hi Hj. unfold correlation_matrix, select_dtypes_number, column.
    rewrite Hrows.
    destruct i as [|[|[|[|i]]]]; [| | | |lia];
      (destruct j as [|[|[|[|j]]]]; [| | | |lia]); reflexivity.
Qed.

Lemma empty_selection_behaviour_witness :
  rows empty_df = [] ∧
  @quick_insights stable_sort empty_df = Raise ValueError ∧
  show_kpis empty_df = (0, None, 0%nat).
Proof.
  split; [reflexivity|].
  pose proof (@empty_selection_behaviour stable_sort empty_df eq_refl)
    as (Hkpi & _ & _ & _ & Hq & _).
  split; [exact Hq|exact Hkpi].
Defined.

(** C1 (as stated) fails: on the empty table the quick insights raise
    instead of reporting that there is no data, and the mean of rating is
    the undefined value. *)
Lemma empty_selection_counterexample :
  raises (@quick_insights stable_sort empty_df) ∧
  (¬ ∃ v, @quick_insights stable_sort empty_df = Ok v) ∧
  mean_skipna (column rating empty_df) = None.
Proof.
  split_and!.
  - by exists ValueError.
  - intros [v Hv]. vm_compute in Hv. discriminate.
  - reflexivity.
Qed.


(** ** Search *)

Lemma elem_of_unique {A} `{EqDecision A} (x : A) (l : list A) : x ∈ unique l ↔ x ∈ l.
Proof. unfold unique. by rewrite elem_of_reverse, elem_of_remove_dups, elem_of_reverse. Qed.

Lemma title_from_empty b s : title_from b s = EmptyString ↔ s = EmptyString.
Proof. destruct s; cbn; split; congruence. Qed.

Lemma title_empty s : title s = EmptyString ↔ s = EmptyString.
Proof. apply title_from_empty. Qed.

Lemma str_title_column key df :
  str_title (column key df) = (λ r, title <$> key r) <$> rows df.
Proof. unfold str_title. apply column_fmap. Qed.

Lemma lookup_total_answer key not_found df name :
  lookup_total key not_found df name =
  if decide (name = EmptyString) then [] else [lookup_answer key not_found df name].
Proof.
  unfold lookup_total, lookup_answer.
  rewrite str_title_column.
  destruct (decide (name = EmptyString)) as [->|Hne].
  - by rewrite bool_decide_eq_true_2.
  - rewrite bool_decide_eq_false_2 by done.
    destruct (decide (Exists (matches key name) (rows df))) as [Hex|Hex].
    + rewrite bool_decide_eq_true_2.
      * rewrite <- list_fmap_compose, (getitem_mask_fmap (_ ∘ _)).
        do 3 f_equal. apply list_filter_iff. intros r.
        unfold matches. cbn. by rewrite bool_decide_spec.
      * apply elem_of_unique, list_elem_of_fmap.
        apply Exists_exists in Hex as (r & Hr & Hm). exists r. by rewrite Hm.
    + rewrite bool_decide_eq_false_2; [done|].
      rewrite elem_of_unique, list_elem_of_fmap. intros (r & Hm & Hr).
      apply Hex, Exists_exists. exists r. split; [done|]. by unfold matches.
Qed.

Lemma lookup_total_str_answer dt key not_found df input :
  lookup_total_str dt key not_found df (title input) =
  field_answer dt key not_found df input.
Proof.
  unfold lookup_total_str, field_answer.
  destruct (decide (input = EmptyString)) as [->|Hne].
  - by rewrite bool_decide_eq_true_2.
  - rewrite bool_decide_eq_false_2 by by rewrite title_empty.
    destruct dt as [|n]; [|done]. cbn. rewrite lookup_total_answer.
    by rewrite decide_False by by rewrite title_empty.
Qed.

(** C6 (as the code has it). On ASCII text: a field left empty gives no
    message and looks at nothing.  An entered city or product line is
    compared, in titlecase, with the titlecase of the values of its column,
    for equality of the whole name: when some row matches, the message
    carries the total of the matching rows, otherwise the message is the
    not-found warning.  That is so when the column is one of text; when it
    is one of numbers, the lookup raises [AttributeError], and the city is
    looked up before the product line.  On the example, Paris is not found,
    yang (a part of Yangon) is not found, and yangon gives the total 125 of
    Yangon. *)
Theorem search_exact_match :
  (∀ (dts : text_dtypes) (df : DataFrame) (city_input product_input : string),
     ascii_text city_input = true → ascii_text product_input = true →
     ascii_column city df = true → ascii_column product_line df = true →
     search_city_and_product_str dts df city_input product_input =
       (found_city ← field_answer (city_dtype dts) city "City not found." df city_input;
        found_product ← field_answer (product_line_dtype dts) product_line
                           "Product not found." df product_input;
        Ok (found_city ++ found_product))) ∧
  search_city_and_product_str text_columns example_df "Paris" ""
    = Ok [warning "City not found."] ∧
  search_city_and_product_str text_columns example_df "yang" ""
    = Ok [warning "City not found."] ∧
  search_city_and_product_str text_columns example_df "yangon" ""
    = Ok [success "Yangon" 125] ∧
  search_city_and_product_str text_columns example_df "" "FOOD"
    = Ok [success "Food" 75].
Proof.
  split_and!; [|by vm_compute..].
  intros dts df c p _ _ _ _. unfold search_city_and_product_str.
  by rewrite !lookup_total_str_answer.
Qed.

Lemma search_exact_match_witness :
  ascii_text "yangon" = true ∧ ascii_text "Tea" = true ∧
  ascii_column city example_df = true ∧ ascii_column product_line example_df = true ∧
  search_city_and_product_str text_columns example_df "yangon" "Tea"
    = Ok [success "Yangon" 125; warning "Product not found."].
Proof.
  split_and!; [reflexivity..|].
  rewrite (proj1 search_exact_match text_columns example_df "yangon" "Tea"
             eq_refl eq_refl eq_refl eq_refl).
  reflexivity.
Defined.

(** C6 (as stated) fails: in a table whose city column has no value the
    column is one of numbers; Paris matches no city of it, and the search
    for Paris raises [AttributeError] instead of answering that the city is
    not found. *)
Lemma search_counterexample :
  ¬ Exists (matches city (title "Paris")) (rows no_city_df) ∧
  search_city_and_product_str no_city_dtypes no_city_df "Paris" ""
    = Raise AttributeError ∧
  search_city_and_product_str no_city_dtypes no_city_df "Paris" ""
    ≠ Ok [warning "City not found."].
Proof.
  split_and!.
  - intros Hex. cbn in Hex. apply Exists_cons in Hex as [[=]|Hex].
    by apply Exists_nil in Hex.
  - reflexivity.
  - discriminate.
Qed.

(** ** Loading *)

Section load_facts.
Context `{Parsers}.

Lemma mapM_to_datetime (col : list (option string)) :
  Forall (λ c, ∀ s, c = Some s → is_Some (str_to_datetime s)) col →
  ∃ dates, mapM to_datetime col = Ok dates ∧ length dates = length col.
Proof.
  induction 1 as [|c col Hc _ (dates & Hdates & Hlen)].
  - by exists [].
  - assert (∃ d, to_datetime c = Ok d) as [d Hd].
    { destruct c as [s|]; cbn; [|by eexists].
      destruct (Hc s eq_refl) as [t ->]. by eexists. }
    exists (d :: dates). cbn [mapM]. rewrite Hd, Hdates. cbn. by rewrite Hlen.
Qed.

Lemma load_data_dates (raw : RawFrame) :
  dates_readable raw →
  ∃ dates, length dates = length (raw_rows raw) ∧
    load_data raw =
    Ok {| has_date := raw_has_date raw;
          rows := zip_with (λ r c, set_cells r c.1 c.2) (raw_rows raw)
                    (zip dates (to_numeric <$> (total <$> raw_rows raw))) |}.
Proof.
  intros Hread. unfold load_data. destruct (raw_has_date raw) eqn:Hd.
  - destruct (mapM_to_datetime (date <$> raw_rows raw)) as (dates & -> & Hlen).
    { apply Forall_fmap. eapply Forall_impl; [exact (Hread Hd)|].
      intros r Hr s Hs. by apply Hr. }
    exists dates. rewrite length_fmap in Hlen. done.
  - eexists. split; [|done]. by rewrite length_fmap.
Qed.

End load_facts.

Lemma sum_total_delete (l : list Row) (i : nat) (r : Row) :
  l !! i = Some r → total r = None → sum_total (delete i l) = sum_total l.
Proof.
  intros Hi Hr. rewrite <- (take_drop_middle l i r Hi) at 2.
  rewrite delete_take_drop, !sum_total_app, sum_total_cons, Hr. cbn. lia.
Qed.

Lemma sum_total_filter_delete (P : Row → Prop) `{!∀ r, Decision (P r)}
    (l : list Row) (i : nat) (r : Row) :
  l !! i = Some r → total r = None →
  sum_total (filter P (delete i l)) = sum_total (filter P l).
Proof.
  intros Hi Hr. rewrite <- (take_drop_middle l i r Hi) at 2.
  rewrite delete_take_drop, !filter_app, filter_cons, !sum_total_app.
  case_decide; [|done]. rewrite sum_total_cons, Hr. cbn. lia.
Qed.

(** C5. When the date cells can be read, loading succeeds whatever the
    total cells hold.  The loaded table has one row for each row read, in
    the same order and with the same other cells; a total cell whose text is
    not a number is missing in the loaded row; and a row with a missing
    total adds nothing to the sum of total, nor to any grouped sum: each
    sum is what it is without that row. *)
Theorem load_coerces_total `{Parsers} (raw : RawFrame) :
  dates_readable raw →
  ∃ df,
    load_data raw = Ok df ∧
    length (rows df) = length (raw_rows raw) ∧
    ∀ i r, raw_rows raw !! i = Some r →
      ∃ r', rows df !! i = Some r' ∧
        (city r' = city r ∧ product_line r' = product_line r ∧ gender r' = gender r ∧
         customer_type r' = customer_type r ∧ payment r' = payment r ∧
         unit_price r' = unit_price r ∧ quantity r' = quantity r ∧ rating r' = rating r) ∧
        total r' = to_numeric (total r) ∧
        (non_numeric (total r) →
           total r' = None ∧
           sum_total (rows df) = sum_total (delete i (rows df)) ∧
           ∀ (key : Row → option string) (k : string),
             series_total_for k (groupby_sum key (rows df)) =
             series_total_for k (groupby_sum key (delete i (rows df)))).
Proof.
  intros Hread. destruct (load_data_dates raw Hread) as (dates & Hlen & Hload).
  eexists. split; [exact Hload|]. cbn [rows]. split.
  - rewrite length_zip_with, length_zip, !length_fmap. lia.
  - intros i r Hi.
    destruct (lookup_lt_is_Some_2 dates i) as [d Hd].
    { rewrite Hlen. by eapply lookup_lt_Some. }
    set (l := zip_with _ _ _).
    assert (Hr' : l !! i = Some (set_cells r d (to_numeric (total r)))).
    { assert (Hz : zip dates (to_numeric <$> (total <$> raw_rows raw)) !! i
                   = Some (d, to_numeric (total r))).
      { by rewrite lookup_zip_with, Hd, !list_lookup_fmap, Hi. }
      unfold l. by rewrite lookup_zip_with, Hi, Hz. }
    exists (set_cells r d (to_numeric (total r))).
    split; [exact Hr'|]. split; [done|]. split; [done|].
    intros (s & Hs & Hnum).
    assert (Hnone : total (set_cells r d (to_numeric (total r))) = None).
    { cbn. rewrite Hs. exact Hnum. }
    split; [exact Hnone|]. split.
    + symmetry. by eapply sum_total_delete.
    + intros key k. rewrite !series_total_for_groupby.
      symmetry. by eapply sum_total_filter_delete.
Qed.

Lemma load_coerces_total_witness :
  @dates_readable decimal_parsers raw_example ∧
  @non_numeric decimal_parsers (RawStr "abc") ∧
  ∃ df, @load_data decimal_parsers raw_example = Ok df ∧
        length (rows df) = 3%nat ∧
        total <$> rows df = [Some 100; None; Some 25] ∧
        sum_total (rows df) = 125.
Proof.
  assert (Hread : @dates_readable decimal_parsers raw_example).
  { intros _. cbn. repeat constructor; intros s [= <-]; by eexists. }
  split; [exact Hread|]. split; [by exists "abc"%string|].
  destruct (@load_coerces_total decimal_parsers raw_example Hread)
    as (df & Hload & Hlen & _).
  exists df. split; [exact Hload|]. split; [exact Hlen|].
  vm_compute in Hload. injection Hload as <-. split; reflexivity.
Defined.

(** ** Correlation *)

Section correlation_facts.
Local Open Scope R_scope.

Lemma complete_pairs_diag (x : list (option R)) :
  complete_pairs x x = (λ a, (a, a)) <$> present x.
Proof.
  unfold complete_pairs, present.
  induction x as [|[a|] x IH]; cbn; [done| |done].
  f_equal. exact IH.
Qed.

Lemma complete_pairs_swap (x y : list (option R)) :
  complete_pairs y x = (λ p, (p.2, p.1)) <$> complete_pairs x y.
Proof.
  unfold complete_pairs. revert y.
  induction x as [|a x IH]; intros [|b y]; cbn; try done.
  destruct a, b; cbn; by rewrite IH.
Qed.

Lemma Rsum_squares_nonneg {A} (f : A → R) (l : list A) :
  0 <= Rsum ((λ a, f a * f a) <$> l).
Proof.
  unfold Rsum. induction l as [|a l IH]; cbn; [lra|].
  pose proof (Rle_0_sqr (f a)) as Hsq. unfold Rsqr in Hsq. lra.
Qed.

Lemma ssqdm_nonneg (l : list R) : 0 <= ssqdm l.
Proof. unfold ssqdm. apply (Rsum_squares_nonneg (λ a, a - Rmean l)). Qed.

Lemma clip_one : clip 1 = 1.
Proof.
  unfold clip. destruct (Rlt_dec 1 1) as [?|_]; [lra|].
  destruct (Rlt_dec 1 (-1)) as [?|_]; [lra|done].
Qed.

Lemma pearson_observed (x y : list (option R)) :
  complete_pairs x y ≠ [] →
  pearson x y =
  let obs := complete_pairs x y in
  let xs := fst <$> obs in
  let ys := snd <$> obs in
  let covxy := Rsum ((λ p, (p.1 - Rmean xs) * (p.2 - Rmean ys)) <$> obs) in
  let divisor := sqrt (ssqdm xs * ssqdm ys) in
  if Req_dec_T divisor 0 then None else Some (clip (covxy / divisor)).
Proof. unfold pearson. by destruct (complete_pairs x y). Qed.

Lemma fmap_fst_diag (l : list R) : fst <$> ((λ a, (a, a)) <$> l) = l.
Proof. induction l as [|a l IH]; cbn; [done|]. by rewrite IH. Qed.

Lemma fmap_snd_diag (l : list R) : snd <$> ((λ a, (a, a)) <$> l) = l.
Proof. induction l as [|a l IH]; cbn; [done|]. by rewrite IH. Qed.

Lemma fmap_fst_swap (l : list (R * R)) : fst <$> ((λ p, (p.2, p.1)) <$> l) = snd <$> l.
Proof. induction l as [|a l IH]; cbn; [done|]. by rewrite IH. Qed.

Lemma fmap_snd_swap (l : list (R * R)) : snd <$> ((λ p, (p.2, p.1)) <$> l) = fst <$> l.
Proof. induction l as [|a l IH]; cbn; [done|]. by rewrite IH. Qed.

Lemma cov_diag (m : R) (l : list R) :
  Rsum ((λ p, (p.1 - m) * (p.2 - m)) <$> ((λ a, (a, a)) <$> l)) =
  Rsum ((λ a, (a - m) * (a - m)) <$> l).
Proof. unfold Rsum. induction l as [|a l IH]; cbn; [done|]. by rewrite IH. Qed.

Lemma cov_swap (mx my : R) (l : list (R * R)) :
  Rsum ((λ p, (p.1 - my) * (p.2 - mx)) <$> ((λ p, (p.2, p.1)) <$> l)) =
  Rsum ((λ p, (p.1 - mx) * (p.2 - my)) <$> l).
Proof. unfold Rsum. induction l as [|a l IH]; cbn; [done|]. rewrite IH. lra. Qed.

Lemma pearson_diag (x : list (option R)) :
  nonzero_variance x → pearson x x = Some 1.
Proof.
  unfold nonzero_variance. intros Hvar.
  rewrite pearson_observed.
  - cbv zeta. rewrite complete_pairs_diag, fmap_fst_diag, fmap_snd_diag, cov_diag.
    fold (ssqdm (present x)).
    rewrite sqrt_square by apply ssqdm_nonneg.
    destruct (Req_dec_T (ssqdm (present x)) 0) as [Hz|Hnz]; [done|].
    f_equal. replace (ssqdm (present x) / ssqdm (present x)) with 1 by (by field).
    apply clip_one.
  - rewrite complete_pairs_diag. intros Hnil. apply fmap_nil_inv in Hnil.
    apply Hvar. rewrite Hnil. unfold ssqdm, Rsum. done.
Qed.

Lemma pearson_sym (x y : list (option R)) : pearson x y = pearson y x.
Proof.
  destruct (complete_pairs x y) as [|p obs] eqn:Hobs.
  - unfold pearson. by rewrite (complete_pairs_swap x y), Hobs.
  - rewrite (pearson_observed x y), (pearson_observed y x).
    + cbv zeta. rewrite (complete_pairs_swap x y), fmap_fst_swap, fmap_snd_swap, cov_swap.
      by rewrite (Rmult_comm (ssqdm (snd <$> complete_pairs x y))).
    + rewrite (complete_pairs_swap x y), Hobs. done.
    + by rewrite Hobs.
Qed.

Lemma entry_corr (cols : list (list (option R))) (i j : nat) :
  entry (corr cols) i j =
  if decide ((i < length cols)%nat ∧ (j < length cols)%nat)
  then Some (pearson (col_at cols (i `max` j)) (col_at cols (i `min` j)))
  else None.
Proof.
  unfold entry, corr. rewrite list_lookup_fmap.
  destruct (decide ((i < length cols)%nat ∧ (j < length cols)%nat)) as [[Hi Hj]|Hn].
  - rewrite lookup_seq_lt by done. cbn.
    rewrite list_lookup_fmap, lookup_seq_lt by done. done.
  - destruct (decide (i < length cols)%nat) as [Hi|Hi].
    + rewrite lookup_seq_lt by done. cbn.
      rewrite list_lookup_fmap, lookup_seq_ge; [done|lia].
    + rewrite lookup_seq_ge; [done|lia].
Qed.

End correlation_facts.

(** C10. The correlation matrix is symmetric, entry by entry, each entry
    being the Pearson coefficient of its two columns over the rows where
    both are present; and the diagonal entry of a numeric column whose
    present cells vary is 1. *)
Theorem correlation_symmetric_unit_diagonal (df : DataFrame) :
  (∀ i j, entry (correlation_matrix df) i j = entry (correlation_matrix df) j i) ∧
  (∀ i j x y, select_dtypes_number df !! i = Some x → select_dtypes_number df !! j = Some y →
     entry (correlation_matrix df) i j = Some (pearson x y)) ∧
  (∀ i x, select_dtypes_number df !! i = Some x → nonzero_variance x →
     entry (correlation_matrix df) i i = Some (Some 1%R)).
Proof.
  unfold correlation_matrix. set (cols := select_dtypes_number df).
  assert (Hentry : ∀ i j x y, cols !! i = Some x → cols !! j = Some y →
            entry (corr cols) i j = Some (pearson x y)).
  { intros i j x y Hx Hy. rewrite entry_corr.
    pose proof (lookup_lt_Some _ _ _ Hx). pose proof (lookup_lt_Some _ _ _ Hy).
    rewrite decide_True by done. f_equal.
    unfold col_at. destruct (Nat.max_spec i j) as [[? ->]|[? ->]];
      [rewrite Nat.min_l by lia|rewrite Nat.min_r by lia]; rewrite Hx, Hy; cbn;
      [apply pearson_sym|done]. }
  split_and!.
  - intros i j. rewrite !entry_corr, Nat.max_comm, Nat.min_comm.
    destruct (decide ((i < length cols)%nat ∧ (j < length cols)%nat)) as [[??]|Hn].
    + by rewrite decide_True.
    + rewrite decide_False; [done|]. tauto.
  - exact Hentry.
  - intros i x Hx Hvar. rewrite (Hentry i i x x Hx Hx). by rewrite pearson_diag.
Qed.

Lemma correlation_symmetric_unit_diagonal_witness :
  select_dtypes_number example_df !! 2%nat = Some [Some 100%R; Some 50%R; Some 25%R] ∧
  nonzero_variance [Some 100%R; Some 50%R; Some 25%R] ∧
  entry (correlation_matrix example_df) 2 2 = Some (Some 1%R).
Proof.
  assert (Hcol : select_dtypes_number example_df !! 2%nat
                 = Some [Some 100%R; Some 50%R; Some 25%R]) by reflexivity.
  assert (Hvar : nonzero_variance [Some 100%R; Some 50%R; Some 25%R]).
  { unfold nonzero_variance, ssqdm, Rmean, Rsum, present. simpl. lra. }
  split; [exact Hcol|]. split; [exact Hvar|].
  exact (proj2 (proj2 (correlation_symmetric_unit_diagonal example_df)) 2%nat _ Hcol Hvar).
Defined.


(** * Further properties of the pipeline *)

(** ** [idxmax] and [max] *)

Lemma argmax_from_spec (best : string * Z) (s : Series) :
  ∃ v s1 s2,
    best :: s = s1 ++ (argmax_from best s, v) :: s2 ∧
    (∀ e, e ∈ s1 → e.2 < v) ∧ (∀ e, e ∈ s2 → e.2 ≤ v) ∧ best.2 ≤ v.
Proof.
  revert best. induction s as [|[k w] s IH]; intros [kb vb]; cbn [argmax_from].
  - exists vb, [], []. split_and!; [done|by intros ? ?%not_elem_of_nil..|done].
  - case_bool_decide as Hlt; cbn in Hlt.
    + destruct (IH (k, w)) as (v & s1 & s2 & Heq & Hs1 & Hs2 & Hb).
      exists v, ((kb, vb) :: s1), s2. rewrite Heq. cbn in Hb. split_and!.
      * done.
      * intros e [->|He]%elem_of_cons; [cbn; lia|by apply Hs1].
      * done.
      * cbn. lia.
    + destruct (IH (kb, vb)) as (v & s1 & s2 & Heq & Hs1 & Hs2 & Hb).
      destruct s1 as [|e1 s1]; cbn in Heq.
      * injection Heq as Hk <- ->. exists vb, [], ((k, w) :: s2).
        rewrite <- Hk. split_and!; [done|by intros ? ?%not_elem_of_nil| |done].
        intros e [->|He]%elem_of_cons; [cbn; lia|by apply Hs2].
      * injection Heq as <- Hs. exists v, ((kb, vb) :: (k, w) :: s1), s2.
        split_and!; [cbn; by rewrite <- Hs| |done|done].
        intros e [->|[->|He]%elem_of_cons]%elem_of_cons.
        -- apply (Hs1 (kb, vb)). by left.
        -- cbn. pose proof (Hs1 (kb, vb) ltac:(by left)). cbn in *. lia.
        -- apply Hs1. by right.
Qed.

(** X1. [idxmax] raises exactly on the empty series; otherwise it returns
    the label of the first entry that carries the largest value: every
    entry before it is strictly smaller and no entry after it is larger. *)
Theorem idxmax_first_largest (s : Series) :
  (idxmax s = Raise ValueError ↔ s = []) ∧
  (∀ k, idxmax s = Ok k →
     ∃ v s1 s2, s = s1 ++ (k, v) :: s2 ∧
       (∀ e, e ∈ s1 → e.2 < v) ∧ (∀ e, e ∈ s2 → e.2 ≤ v)).
Proof.
  split.
  - destruct s; cbn; split; congruence.
  - intros k Hk. destruct s as [|best s]; [done|]. cbn in Hk. injection Hk as <-.
    destruct (argmax_from_spec best s) as (v & s1 & s2 & Heq & Hs1 & Hs2 & _).
    by exists v, s1, s2.
Qed.

Lemma idxmax_largest (s : Series) (k : string) :
  idxmax s = Ok k → ∃ v, (k, v) ∈ s ∧ ∀ e, e ∈ s → e.2 ≤ v.
Proof.
  intros Hk. destruct s as [|best s]; [done|]. cbn in Hk. injection Hk as <-.
  destruct (argmax_from_spec best s) as (v & s1 & s2 & Heq & Hs1 & Hs2 & _).
  exists v. rewrite Heq. split.
  - apply elem_of_app. right. by left.
  - intros e [He|[->|He]%elem_of_cons]%elem_of_app; [|done|by apply Hs2].
    apply Hs1 in He. lia.
Qed.

Lemma foldl_max_spec (m : Z) (l : list Z) :
  m ≤ foldl Z.max m l ∧ (∀ x, x ∈ l → x ≤ foldl Z.max m l) ∧
  (foldl Z.max m l = m ∨ foldl Z.max m l ∈ l).
Proof.
  revert m. induction l as [|y l IH]; intros m; cbn.
  - split_and!; [lia|by intros ? ?%not_elem_of_nil|by left].
  - destruct (IH (Z.max m y)) as (Hm & Hall & Hin). split_and!.
    + lia.
    + intros x [->|Hx]%elem_of_cons; [lia|by apply Hall].
    + destruct Hin as [->|Hin]; [|right; by right].
      destruct (Z.max_spec m y) as [[_ ->]|[_ ->]]; [right; by left|by left].
Qed.

Lemma series_max_largest (s : Series) (k : string) (v : Z) :
  (k, v) ∈ s → (∀ e, e ∈ s → e.2 ≤ v) → series_max s = Some v.
Proof.
  intros Hin Hmax. destruct s as [|x s]; [by apply not_elem_of_nil in Hin|].
  cbn. f_equal.
  destruct (foldl_max_spec x.2 (snd <$> s)) as (Hx & Hall & Hmem).
  assert (foldl Z.max x.2 (snd <$> s) ≤ v).
  { destruct Hmem as [->|Hmem]; [apply Hmax; by left|].
    apply list_elem_of_fmap in Hmem as (e & -> & He). apply Hmax. by right. }
  assert (v ≤ foldl Z.max x.2 (snd <$> s)); [|lia].
  apply elem_of_cons in Hin as [<-|Hin]; [done|].
  apply Hall. apply list_elem_of_fmap. by exists (k, v).
Qed.

(** ** The entries of a grouped sum *)

Lemma compare_Lt_trans (a b c : string) :
  String.compare a b = Lt → String.compare b c = Lt → String.compare a c = Lt.
Proof.
  intros Hab Hbc.
  apply OrderedTypeEx.String_as_OT.cmp_lt.
  eapply OrderedTypeEx.String_as_OT.lt_trans;
    by apply OrderedTypeEx.String_as_OT.cmp_lt.
Qed.

Lemma compare_Lt_irrefl (a : string) : String.compare a a ≠ Lt.
Proof.
  assert (String.compare a a = Eq) as -> by by apply OrderedTypeEx.String_as_OT.cmp_eq.
  done.
Qed.

Lemma label_lt_NoDup (s : Series) : Sorted label_lt s → NoDup (fst <$> s).
Proof.
  intros Hs. apply Sorted_StronglySorted in Hs.
  - induction Hs as [|e s _ IH Hall]; cbn; constructor; [|done].
    intros (e' & He & Hin)%list_elem_of_fmap.
    rewrite Forall_forall in Hall. specialize (Hall e' Hin).
    unfold label_lt in Hall. rewrite He in Hall. by apply compare_Lt_irrefl in Hall.
  - intros x y z. unfold label_lt. apply compare_Lt_trans.
Qed.

Lemma group_add_labels k k' v acc :
  k ∈ fst <$> group_add k' v acc ↔ k = k' ∨ k ∈ fst <$> acc.
Proof.
  induction acc as [|[k0 v0] acc IH]; cbn [group_add].
  - cbn. rewrite list_elem_of_singleton, elem_of_nil. tauto.
  - destruct (String.compare k' k0) eqn:Hc.
    + apply String.compare_eq_iff in Hc as ->. cbn. rewrite !elem_of_cons. tauto.
    + cbn. rewrite !elem_of_cons. tauto.
    + cbn. rewrite !elem_of_cons, IH. tauto.
Qed.

Lemma groupby_sum_labels key l k :
  k ∈ fst <$> groupby_sum key l ↔ ∃ r, r ∈ l ∧ key r = Some k.
Proof.
  induction l as [|r l IH] using rev_ind.
  - cbn. split; [by intros ?%not_elem_of_nil|]. by intros (? & ?%not_elem_of_nil & _).
  - rewrite groupby_sum_snoc. unfold group_step.
    destruct (key r) as [k'|] eqn:Hr.
    + rewrite group_add_labels, IH. split.
      * intros [->|(r' & Hin & Hk)].
        -- exists r. split; [|done]. apply elem_of_app. right. by left.
        -- exists r'. split; [|done]. apply elem_of_app. by left.
      * intros (r' & [Hin|Hin%list_elem_of_singleton]%elem_of_app & Hk).
        -- right. by exists r'.
        -- left. congruence.
    + rewrite IH. split.
      * intros (r' & Hin & Hk). exists r'. split; [|done]. apply elem_of_app. by left.
      * intros (r' & [Hin|Hin%list_elem_of_singleton]%elem_of_app & Hk).
        -- by exists r'.
        -- congruence.
Qed.

Lemma series_total_for_absent k (s : Series) :
  k ∉ fst <$> s → series_total_for k s = 0.
Proof.
  intros Hk. unfold series_total_for. rewrite filter_none; [done|].
  apply Forall_forall. intros e He Heq. apply Hk.
  apply list_elem_of_fmap. by exists e.
Qed.

Lemma series_total_for_entry k v (s : Series) :
  NoDup (fst <$> s) → (k, v) ∈ s → series_total_for k s = v.
Proof.
  induction s as [|e s IH]; intros Hnd Hin; [by apply not_elem_of_nil in Hin|].
  cbn in Hnd. apply NoDup_cons in Hnd as [Hnot Hnd].
  rewrite series_total_for_cons.
  apply elem_of_cons in Hin as [<-|Hin].
  - cbn. rewrite decide_True by done. rewrite series_total_for_absent; [lia|done].
  - rewrite decide_False.
    + rewrite IH; [lia|done..].
    + intros Heq. apply Hnot. apply list_elem_of_fmap. by exists (k, v).
Qed.

Lemma groupby_sum_NoDup key l : NoDup (fst <$> groupby_sum key l).
Proof. apply label_lt_NoDup, groupby_sum_Sorted. Qed.

Lemma groupby_sum_entry key l k v :
  (k, v) ∈ groupby_sum key l ↔
  (∃ r, r ∈ l ∧ key r = Some k) ∧ v = sum_total (filter (λ r, key r = Some k) l).
Proof.
  pose proof (groupby_sum_NoDup key l) as Hnd. split.
  - intros Hin. split.
    + apply groupby_sum_labels, list_elem_of_fmap. by exists (k, v).
    + by rewrite <- series_total_for_groupby, (series_total_for_entry k v).
  - intros [Hex%groupby_sum_labels ->].
    apply list_elem_of_fmap in Hex as ([k' v'] & Hk & Hin). cbn in Hk. subst k'.
    by rewrite <- series_total_for_groupby, (series_total_for_entry k v').
Qed.

(** X2. A grouped sum has one entry for each value that occurs in the
    grouping column and no other entry, no label twice, and the entry of a
    value is the sum of [total] over the rows that carry it (2 rows of
    Yangon and none without a city therefore give one Yangon entry). *)
Theorem groupby_sum_entries (key : Row → option string) (l : list Row) :
  NoDup (fst <$> groupby_sum key l) ∧
  ∀ k v, (k, v) ∈ groupby_sum key l ↔
         (∃ r, r ∈ l ∧ key r = Some k) ∧
         v = sum_total (filter (λ r, key r = Some k) l).
Proof. split; [apply groupby_sum_NoDup|apply groupby_sum_entry]. Qed.

(** ** Grouped totals in machine numbers *)

Lemma wrap64_small (z : Z) : - 2 ^ 63 ≤ z < 2 ^ 63 → wrap64 z = z.
Proof. intros Hz. unfold wrap64. rewrite Z.mod_small; lia. Qed.

Lemma Zsum_cons (x : Z) (l : list Z) : Zsum (x :: l) = x + Zsum l.
Proof. done. Qed.

Lemma Zsum_abs_nonneg (l : list Z) : 0 ≤ Zsum (Z.abs <$> l).
Proof. induction l as [|x l IH]; [done|]. rewrite fmap_cons, Zsum_cons. lia. Qed.

Lemma foldl_int64_add_exact (l : list Z) (acc : Z) :
  Z.abs acc + Zsum (Z.abs <$> l) ≤ 2 ^ 63 - 1 → foldl int64_add acc l = acc + Zsum l.
Proof.
  revert acc. induction l as [|x l IH]; intros acc Hfits.
  - cbn. lia.
  - rewrite fmap_cons, Zsum_cons in Hfits. rewrite Zsum_cons.
    change (foldl int64_add acc (x :: l)) with (foldl int64_add (int64_add acc x) l).
    pose proof (Zsum_abs_nonneg l).
    assert (Hstep : int64_add acc x = acc + x).
    { unfold int64_add. apply wrap64_small. lia. }
    rewrite Hstep, IH; lia.
Qed.

Lemma sum_skipna_present (col : list (option Z)) :
  sum_skipna col = Zsum (omap (λ c, c) col).
Proof.
  unfold sum_skipna. induction col as [|[x|] col IH]; [done|..].
  - change (omap (λ c, c) (Some x :: col)) with (x :: omap (λ c : option Z, c) col).
    rewrite Zsum_cons. cbn. by rewrite IH.
  - change (omap (λ c, c) (None :: col)) with (omap (λ c : option Z, c) col).
    cbn. by rewrite IH.
Qed.

Lemma Zsum_abs_present (l : list Row) :
  Zsum (Z.abs <$> omap (λ c, c) (total <$> l))
  = Zsum ((λ r, Z.abs (default 0 (total r))) <$> l).
Proof.
  induction l as [|r l IH]; [done|].
  rewrite !fmap_cons, Zsum_cons, <- IH. destruct (total r) as [t|].
  - change (omap (λ c, c) (Some t :: (total <$> l)))
      with (t :: omap (λ c : option Z, c) (total <$> l)).
    by rewrite fmap_cons, Zsum_cons.
  - change (omap (λ c, c) (None :: (total <$> l)))
      with (omap (λ c : option Z, c) (total <$> l)).
    cbn. lia.
Qed.

Lemma fits_filter (dt : number_dtype) (P : Row → Prop) `{!∀ r, Decision (P r)}
    (l : list Row) :
  fits dt (total <$> l) → fits dt (total <$> filter P l).
Proof.
  unfold fits. intros Hfits. etransitivity; [|exact Hfits]. clear Hfits.
  rewrite !Zsum_abs_present.
  induction l as [|r l IH]; [done|].
  rewrite filter_cons, fmap_cons, Zsum_cons. case_decide.
  - rewrite fmap_cons, Zsum_cons. lia.
  - lia.
Qed.

Section machine_sums.
Context `{Float64}.

Lemma sum_as_exact (dt : number_dtype) (col : list (option Z)) :
  fits dt col → sum_as dt col = sum_skipna col.
Proof.
  intros Hfits. rewrite sum_skipna_present. destruct dt; cbn.
  - unfold int64_sum. rewrite foldl_int64_add_exact; [lia|]. exact Hfits.
  - apply float64_sum_exact. exact Hfits.
Qed.

Lemma group_sum_as_exact (dt : number_dtype) (col : list (option Z)) :
  fits dt col → group_sum_as dt col = sum_skipna col.
Proof.
  intros Hfits. rewrite sum_skipna_present. destruct dt; cbn.
  - unfold int64_sum. rewrite foldl_int64_add_exact; [lia|]. exact Hfits.
  - apply float64_group_sum_exact. exact Hfits.
Qed.

Lemma groupby_sum_as_exact (dt : number_dtype) (key : Row → option string) (l : list Row) :
  fits dt (total <$> l) → groupby_sum_as dt key l = groupby_sum key l.
Proof.
  intros Hfits. unfold groupby_sum_as.
  assert (Hfix : Forall (λ e : string * Z,
                   (e.1, group_sum_as dt (total <$> filter (λ r, key r = Some e.1) l)) = e)
                 (groupby_sum key l)).
  { apply Forall_forall. intros [k v] Hin. cbn.
    apply groupby_sum_entry in Hin as [_ ->].
    by rewrite group_sum_as_exact by by apply fits_filter. }
  induction Hfix as [|e s He _ IH]; [done|]. by rewrite fmap_cons, He, IH.
Qed.

(** C7 (as the code has it). When no row lacks the grouping value and the
    absolute values of the totals add up to no more than the arithmetic of
    the column holds exactly (less than 2^63 in [int64], 2^53 at most in
    [float64]), the figures of the program are the exact sums and the
    grouped totals add up to the total of the whole table, the figure of
    [show_kpis]; on the three-row example the totals by city are Mandalay 50
    and Yangon 125, the whole is 175, and the top city is Yangon. *)
Theorem grouped_totals_add_up :
  (∀ (dt : number_dtype) (key : Row → option string) (df : DataFrame),
     Forall (λ r, is_Some (key r)) (rows df) →
     fits dt (column total df) →
     sum_as dt (column total df) = sum_skipna (column total df) ∧
     groupby_sum_as dt key (rows df) = groupby_sum key (rows df) ∧
     series_sum (groupby_sum_as dt key (rows df)) = sum_as dt (column total df)) ∧
  groupby_sum_as int64 city (rows example_df) = [("Mandalay", 50); ("Yangon", 125)] ∧
  sum_as int64 (column total example_df) = 175 ∧
  idxmax (groupby_sum_as int64 city (rows example_df)) = Ok "Yangon".
Proof.
  split_and!; [|done..].
  intros dt key df Hall Hfits.
  rewrite (sum_as_exact dt _ Hfits), (groupby_sum_as_exact dt key _ Hfits).
  split_and!; [done..|].
  rewrite series_sum_groupby. by rewrite (filter_all _ _ Hall).
Qed.
End machine_sums.

Lemma grouped_totals_add_up_witness :
  Forall (λ r, is_Some (city r)) (rows example_df) ∧
  fits float64 (column total example_df) ∧
  series_sum (@groupby_sum_as left_to_right float64 city (rows example_df)) = 175.
Proof.
  assert (Hall : Forall (λ r, is_Some (city r)) (rows example_df)).
  { cbn. repeat constructor; eauto. }
  assert (Hfits : fits float64 (column total example_df)).
  { vm_compute. discriminate. }
  split; [exact Hall|]. split; [exact Hfits|].
  destruct (proj1 (@grouped_totals_add_up left_to_right) float64 city example_df Hall Hfits)
    as (Hsum & _ & ->).
  rewrite Hsum. reflexivity.
Defined.

(** C7 (as stated) fails: of two sales with the totals 2^63 - 1 and 1 and
    no missing cell, the column is [int64]; the totals by product line are
    2^63 - 1 for Food and 1 for Health, which add up to 2^63, while the sum
    over the whole table wraps around to - 2^63. *)
Lemma grouped_totals_counterexample :
  Forall (λ r, is_Some (product_line r)) (rows overflow_df) ∧
  @groupby_sum_as left_to_right int64 product_line (rows overflow_df)
    = [("Food", 9223372036854775807); ("Health", 1)] ∧
  @sum_as left_to_right int64 (column total overflow_df) = -9223372036854775808 ∧
  series_sum (@groupby_sum_as left_to_right int64 product_line (rows overflow_df))
    ≠ @sum_as left_to_right int64 (column total overflow_df).
Proof.
  split_and!.
  - cbn. repeat constructor; eauto.
  - by vm_compute.
  - by vm_compute.
  - vm_compute. discriminate.
Qed.

(** ** Sums over buckets *)

Lemma Zsum_add {B} (f g : B → Z) (l : list B) :
  Zsum ((λ b, f b + g b) <$> l) = Zsum (f <$> l) + Zsum (g <$> l).
Proof. unfold Zsum. induction l as [|b l IH]; cbn; lia. Qed.

Lemma Zsum_zero {B} (l : list B) : Zsum ((λ _, 0) <$> l) = 0.
Proof. unfold Zsum. induction l as [|b l IH]; cbn; lia. Qed.

Lemma Zsum_ext {B} (f g : B → Z) (l : list B) :
  (∀ b, b ∈ l → f b = g b) → Zsum (f <$> l) = Zsum (g <$> l).
Proof.
  intros Hfg. f_equal. apply list_fmap_ext. intros i b Hb. apply Hfg.
  by eapply list_elem_of_lookup_2.
Qed.

Lemma Zsum_indicator {K} `{EqDecision K} (k : K) (w : Z) (l : list K) :
  NoDup l → Zsum ((λ b, if decide (b = k) then w else 0) <$> l) = if decide (k ∈ l) then w else 0.
Proof.
  unfold Zsum. induction 1 as [|b l Hb _ IH]; cbn; [done|].
  rewrite IH. destruct (decide (b = k)) as [->|Hne].
  - rewrite (decide_True (P := k ∈ k :: l)) by by left.
    rewrite decide_False by done. lia.
  - destruct (decide (k ∈ l)) as [Hin|Hin].
    + rewrite decide_True by by right. lia.
    + rewrite decide_False; [lia|]. intros [->|?]%elem_of_cons; done.
Qed.

Lemma bucket_sums {A K} `{EqDecision K} (key : A → option K) (w : A → Z)
    (buckets : list K) (l : list A) :
  NoDup buckets →
  (∀ x b, x ∈ l → key x = Some b → b ∈ buckets) →
  Zsum ((λ b, Zsum (w <$> filter (λ x, key x = Some b) l)) <$> buckets) =
  Zsum (w <$> filter (λ x, is_Some (key x)) l).
Proof.
  intros Hnd. induction l as [|x l IH]; intros Hcover.
  - cbn. apply Zsum_zero.
  - assert (IH' := IH (λ y b Hin, Hcover y b (list_elem_of_further _ _ _ Hin))).
    rewrite (Zsum_ext _ (λ b, (if decide (Some b = key x) then w x else 0)
                              + Zsum (w <$> filter (λ x, key x = Some b) l))).
    + rewrite Zsum_add, IH', filter_cons. destruct (key x) as [b0|] eqn:Hx.
      * rewrite decide_True by eauto.
        rewrite (Zsum_ext _ (λ b, if decide (b = b0) then w x else 0)).
        -- rewrite Zsum_indicator by done. rewrite decide_True.
           ++ unfold Zsum. cbn. lia.
           ++ apply (Hcover x); [by left|done].
        -- intros b _. repeat case_decide; congruence.
      * rewrite decide_False by by intros [? ?].
        rewrite (Zsum_ext _ (λ _, 0)) by (intros; by rewrite decide_False).
        rewrite Zsum_zero. lia.
    + intros b _. rewrite filter_cons.
      repeat case_decide; unfold Zsum; cbn; congruence || lia.
Qed.

Lemma series_sum_Zsum (s : Series) : series_sum s = Zsum (snd <$> s).
Proof. unfold series_sum, Zsum. induction s as [|e s IH]; cbn; lia. Qed.

Lemma Zsum_ones {B} (l : list B) : Zsum ((λ _, 1) <$> l) = Z.of_nat (length l).
Proof. unfold Zsum. induction l as [|b l IH]; cbn [fmap list_fmap foldr length]; lia. Qed.

(** ** Value counts and the mode *)

Lemma NoDup_unique {A} `{EqDecision A} (l : list A) : NoDup (unique l).
Proof. unfold unique. rewrite reverse_Permutation. apply NoDup_remove_dups. Qed.

Lemma fmap_fst_tagged {A B} (f : A → B) (l : list A) : fst <$> ((λ k, (k, f k)) <$> l) = l.
Proof. induction l as [|a l IH]; cbn; [done|]. by rewrite IH. Qed.

Lemma elem_of_present {A} (x : A) (col : list (option A)) :
  x ∈ omap (λ c, c) col ↔ Some x ∈ col.
Proof.
  rewrite list_elem_of_omap. split.
  - by intros (c & Hc & ->).
  - intros Hx. by exists (Some x).
Qed.

Lemma present_filter_is_Some {A} (col : list (option A)) :
  length (omap (λ c, c) col) = length (filter (λ c, is_Some c) col).
Proof.
  induction col as [|[a|] col IH]; cbn; rewrite ?filter_cons; [done| |].
  - rewrite decide_True by eauto. cbn. by rewrite IH.
  - rewrite decide_False by by intros [? ?]. done.
Qed.

Section value_counts_facts.
Context `{ArgSort}.

Lemma value_counts_Permutation (col : list (option string)) :
  value_counts col ≡ₚ (λ k, (k, occurrences k col)) <$> unique (omap (λ c, c) col).
Proof. unfold value_counts. apply nargsort_Permutation. Qed.

Lemma value_counts_entry (col : list (option string)) (k : string) (n : Z) :
  (k, n) ∈ value_counts col ↔ Some k ∈ col ∧ n = occurrences k col.
Proof.
  rewrite value_counts_Permutation, list_elem_of_fmap. split.
  - intros (k' & [= -> ->] & Hk). split; [|done].
    by apply elem_of_present, elem_of_unique.
  - intros [Hk ->]. exists k. split; [done|]. by apply elem_of_unique, elem_of_present.
Qed.


(** X3. The value counts hold one entry for each label that occurs in the
    column, with the number of cells that carry it, in descending order of
    that number whatever the sort kind; no label comes twice and the counts
    add up to the number of cells present. *)
Theorem value_counts_spec (col : list (option string)) :
  Sorted value_ge (value_counts col) ∧
  NoDup (fst <$> value_counts col) ∧
  (∀ k n, (k, n) ∈ value_counts col ↔ Some k ∈ col ∧ n = occurrences k col) ∧
  series_sum (value_counts col) = Z.of_nat (length (omap (λ c, c) col)).
Proof.
  split_and!.
  - unfold value_counts. rewrite nargsort_all_keyed.
    + apply (Sorted_reverse (key_le (λ e : string * Z, default 0 (Some e.2)))).
      apply argsort_Sorted.
    + apply Forall_forall. intros e _. by eexists.
  - rewrite value_counts_Permutation, fmap_fst_tagged. apply NoDup_unique.
  - apply value_counts_entry.
  - rewrite (series_sum_Permutation _ _ (value_counts_Permutation col)).
    rewrite series_sum_Zsum, <- list_fmap_compose. unfold occurrences.
    rewrite (Zsum_ext _ (λ k, Zsum ((λ _, 1) <$> filter (λ c : option string, c = Some k) col))).
    + rewrite (bucket_sums (λ c : option string, c) (λ _, 1)).
      * by rewrite Zsum_ones, present_filter_is_Some.
      * apply NoDup_unique.
      * intros c k Hc ->. by apply elem_of_unique, elem_of_present.
    + intros k _. cbn. by rewrite Zsum_ones.
Qed.

End value_counts_facts.

(** ** The quick insights *)


Lemma idxmax_Ok_iff (s : Series) : (∃ k, idxmax s = Ok k) ↔ s ≠ [].
Proof. destruct s; cbn; split; [by intros [? ?]|done|done|eauto]. Qed.

Lemma idxmax_groupby_largest key l k :
  idxmax (groupby_sum key l) = Ok k →
  (∃ r, r ∈ l ∧ key r = Some k) ∧
  series_max (groupby_sum key l) = Some (total_of key k l) ∧
  ∀ r k', r ∈ l → key r = Some k' → total_of key k' l ≤ total_of key k l.
Proof.
  intros Hk. destruct (idxmax_largest _ _ Hk) as (v & Hin & Hmax).
  pose proof (groupby_sum_entry key l) as Hent.
  pose proof (proj1 (Hent k v) Hin) as [Hex Hv].
  unfold total_of. rewrite <- Hv. split_and!; [done| |].
  - by eapply series_max_largest.
  - intros r k' Hr Hk'.
    apply (Hmax (k', sum_total (filter (λ r, key r = Some k') l))).
    apply Hent. eauto.
Qed.

Section insights_facts.
Context `{ArgSort}.


Lemma quick_insights_Ok (df : DataFrame) (ins : insights) :
  quick_insights df = Ok ins →
  idxmax (groupby_sum city (rows df)) = Ok (top_city ins) ∧
  idxmax (value_counts (column payment df)) = Ok (top_payment ins) ∧
  (∃ p, idxmax (groupby_sum product_line (rows df)) = Ok p ∧ top_product ins = title p) ∧
  top_product_sales ins = series_max (groupby_sum product_line (rows df)) ∧
  last_30_total df = Ok (last_30 ins).
Proof.
  unfold quick_insights. intros Hq.
  destruct (idxmax (groupby_sum city (rows df))) as [c|]; [|done].
  destruct (idxmax (value_counts (column payment df))) as [pm|]; [|done].
  destruct (idxmax (groupby_sum product_line (rows df))) as [p|]; [|done].
  destruct (last_30_total df) as [t|]; [|done].
  cbn in Hq. injection Hq as <-. cbn. eauto 10.
Qed.

(** X4. When the quick insights are shown, the top city is a city of the
    table whose total no other city exceeds; the top product is the
    titlecase of a product line of the table whose total no other product
    line exceeds, reported with that total; and the top payment is a
    payment method of the table that no other method outnumbers. *)
Theorem quick_insights_maxima (df : DataFrame) (ins : insights) :
  quick_insights df = Ok ins →
  ((∃ r, r ∈ rows df ∧ city r = Some (top_city ins)) ∧
   ∀ r k, r ∈ rows df → city r = Some k →
     total_of city k (rows df) ≤ total_of city (top_city ins) (rows df)) ∧
  (∃ p, top_product ins = title p ∧
     (∃ r, r ∈ rows df ∧ product_line r = Some p) ∧
     top_product_sales ins = Some (total_of product_line p (rows df)) ∧
     ∀ r k, r ∈ rows df → product_line r = Some k →
       total_of product_line k (rows df) ≤ total_of product_line p (rows df)) ∧
  (Some (top_payment ins) ∈ column payment df ∧
   ∀ k, occurrences k (column payment df)
        ≤ occurrences (top_payment ins) (column payment df)).
Proof.
  intros (Hc & Hpm & (p & Hp & Htitle) & Hsales & _)%quick_insights_Ok.
  split_and!.
  - by apply idxmax_groupby_largest in Hc as (? & _ & _).
  - by apply idxmax_groupby_largest in Hc as (_ & _ & ?).
  - exists p. apply idxmax_groupby_largest in Hp as (Hex & Hmax & Hall).
    split_and!; [done|done|by rewrite Hsales|done].
  - apply idxmax_largest in Hpm as (n & Hin & _).
    by apply value_counts_entry in Hin as [? _].
  - intros k. apply idxmax_largest in Hpm as (n & Hin & Hmax).
    apply value_counts_entry in Hin as [_ ->].
    destruct (decide (Some k ∈ column payment df)) as [Hk|Hk].
    + apply (Hmax (k, occurrences k (column payment df))). by apply value_counts_entry.
    + unfold occurrences at 1. rewrite filter_none; [cbn; unfold occurrences; lia|].
      apply Forall_forall. by intros c Hcell ->.
Qed.


End insights_facts.

Lemma quick_insights_maxima_witness :
  @quick_insights stable_sort insight_df =
    Ok {| top_city := "Yangon"; top_payment := "Card"; top_product := "Health";
          top_product_sales := Some 100; last_30 := 175 |} ∧
  Some "Card"%string ∈ column payment insight_df ∧
  occurrences "Cash" (column payment insight_df)
    ≤ occurrences "Card" (column payment insight_df).
Proof.
  assert (Hq : @quick_insights stable_sort insight_df =
                 Ok {| top_city := "Yangon"; top_payment := "Card"; top_product := "Health";
                       top_product_sales := Some 100; last_30 := 175 |})
    by (vm_compute; reflexivity).
  split; [exact Hq|].
  destruct (@quick_insights_maxima stable_sort _ _ Hq) as (_ & _ & Hin & Hmost).
  split; [exact Hin|exact (Hmost "Cash"%string)].
Defined.

(** ** More on the filter *)

Lemma filter_sublist_impl {A} (P Q : A → Prop) `{!∀ x, Decision (P x)}
    `{!∀ x, Decision (Q x)} (l : list A) :
  (∀ x, x ∈ l → P x → Q x) → filter P l `sublist_of` filter Q l.
Proof.
  intros Himp. induction l as [|x l IH]; [done|].
  rewrite !filter_cons.
  assert (IH' : filter P l `sublist_of` filter Q l).
  { apply IH. intros y Hy. apply Himp. by right. }
  destruct (decide (P x)) as [HP|HP].
  - rewrite decide_True by (apply Himp; [by left|done]). by constructor.
  - case_decide; [by constructor|done].
Qed.

Lemma filter_iff_elem {A} (P Q : A → Prop) `{!∀ x, Decision (P x)}
    `{!∀ x, Decision (Q x)} (l : list A) :
  (∀ x, x ∈ l → P x ↔ Q x) → filter P l = filter Q l.
Proof.
  intros Hiff. induction l as [|x l IH]; [done|].
  rewrite !filter_cons, IH by (intros y Hy; apply Hiff; by right).
  pose proof (Hiff x ltac:(by left)). repeat case_decide; tauto || done.
Qed.

(** X6. After filtering, the series by city, by gender and by product line
    carry only labels that are among the selected values of their
    dimension: no chart shows a category that was deselected. *)
Theorem charts_show_selected_only `{ArgSort} (S : Selection) (df : DataFrame) :
  Forall (λ e, Some e.1 ∈ city_filter S) (sales_by_city (apply_filters S df)) ∧
  Forall (λ e, Some e.1 ∈ gender_filter S) (gender_comparison (apply_filters S df)) ∧
  Forall (λ e, Some e.1 ∈ product_filter S) (barh (sales_by_product (apply_filters S df))) ∧
  Forall (λ e, Some e.1 ∈ product_filter S) (pie (sales_by_product (apply_filters S df))).
Proof.
  assert (Hsel : ∀ (key : Row → option string) (allowed : list (option string)),
            (∀ r, selected S (has_date df) r → key r ∈ allowed) →
            Forall (λ e, Some e.1 ∈ allowed) (groupby_sum key (rows (apply_filters S df)))).
  { intros key allowed Hall. apply Forall_forall. intros [k v] Hin.
    apply groupby_sum_entry in Hin as [(r & Hr & Hk) _].
    rewrite apply_filters_rows in Hr. apply list_elem_of_filter in Hr as [Hr _].
    cbn. rewrite <- Hk. by apply Hall. }
  assert (Hprod : Forall (λ e, Some e.1 ∈ product_filter S)
                    (barh (sales_by_product (apply_filters S df)))).
  { cbn [sales_by_product barh]. rewrite sort_values_Permutation.
    apply Hsel. by intros r (_ & ? & _). }
  split_and!; [| |done|done].
  - apply Hsel. by intros r (? & _).
  - apply Hsel. by intros r (_ & _ & ? & _).
Qed.

(** X7. Narrowing the selection (fewer allowed values, a shorter date
    range) can only drop rows: the narrower result is a sub-sequence of the
    wider one, so its row count is no larger. *)
Theorem filter_monotone (S S' : Selection) (df : DataFrame) :
  narrower S S' →
  rows (apply_filters S df) `sublist_of` rows (apply_filters S' df) ∧
  (length (rows (apply_filters S df)) ≤ length (rows (apply_filters S' df)))%nat.
Proof.
  intros (Hc & Hp & Hg & Hs & He).
  assert (Hsub : rows (apply_filters S df) `sublist_of` rows (apply_filters S' df)).
  { rewrite !apply_filters_rows. apply filter_sublist_impl.
    intros r _ (Hrc & Hrp & Hrg & Hrd). split_and!; [by apply Hc|by apply Hp|by apply Hg|].
    intros Hd. destruct (Hrd Hd) as (d & Hdate & ?). exists d. split; [done|lia]. }
  split; [done|]. by apply sublist_length.
Qed.

Lemma filter_monotone_witness :
  narrower mandalay_only all_of_dated_df ∧
  (length (rows (apply_filters mandalay_only dated_df))
   ≤ length (rows (apply_filters all_of_dated_df dated_df)))%nat.
Proof.
  assert (Hn : narrower mandalay_only all_of_dated_df).
  { unfold narrower. cbn. split_and!; [|done|done|lia|lia].
    intros x ->%list_elem_of_singleton. right. by left. }
  split; [exact Hn|]. exact (proj2 (filter_monotone _ _ dated_df Hn)).
Defined.

(** X8. A selection that allows every value and every date present, as the
    sidebar does by default, keeps every row of a table without a date
    column, and of a table with one every row except those whose date is
    missing. *)
Theorem filter_covering (S : Selection) (df : DataFrame) :
  covers S df →
  rows (apply_filters S df) =
  if has_date df then filter (λ r, is_Some (date r)) (rows df) else rows df.
Proof.
  unfold covers. intros Hcov. rewrite Forall_forall in Hcov.
  rewrite apply_filters_rows. destruct (has_date df).
  - apply filter_iff_elem. intros r Hr.
    destruct (Hcov r Hr) as (Hc & Hp & Hg & Hd). split.
    + intros (_ & _ & _ & Hin). destruct (Hin eq_refl) as (d & -> & _). by eexists.
    + intros [d Hdate]. split_and!; [done..|]. intros _. exists d. eauto.
  - apply filter_all, Forall_forall. intros r Hr.
    destruct (Hcov r Hr) as (Hc & Hp & Hg & _). by split_and!.
Qed.

Lemma filter_covering_witness :
  covers all_of_dated_df dated_df ∧
  length (rows (apply_filters all_of_dated_df dated_df)) = 2%nat.
Proof.
  assert (Hcov : covers all_of_dated_df dated_df).
  { unfold covers. cbn. repeat (apply Forall_cons; split); [..|by apply Forall_nil];
      cbn; split_and!; try (intros d [= <-]; lia); try (by intros d [=]);
      apply list_elem_of_In; cbn; tauto. }
  split; [exact Hcov|]. rewrite (filter_covering _ _ Hcov). reflexivity.
Defined.

(** X9. On a table with a date column every row that passes the filter has
    a date, and that date lies in the selected range; hence rows without a
    date never pass, and a range whose end precedes its start lets nothing
    pass. *)
Theorem filter_date_edges (S : Selection) (df : DataFrame) :
  has_date df = true →
  Forall (λ r, ∃ d, date r = Some d ∧ start_date S ≤ d ≤ end_date S)
         (rows (apply_filters S df)) ∧
  (end_date S < start_date S → rows (apply_filters S df) = []).
Proof.
  intros Hd. rewrite apply_filters_rows, Hd. split.
  - apply Forall_forall. intros r [(_ & _ & _ & Hin) _]%list_elem_of_filter.
    by apply Hin.
  - intros Hinv. apply filter_none, Forall_forall.
    intros r _ (_ & _ & _ & Hin). destruct (Hin eq_refl) as (d & _ & ?). lia.
Qed.

Lemma filter_date_edges_witness :
  has_date dated_df = true ∧
  Forall (λ r : Row, ∃ d, date r = Some d ∧ 10 ≤ d ≤ 20)
         (rows (apply_filters all_of_dated_df dated_df)).
Proof.
  split; [reflexivity|].
  exact (proj1 (filter_date_edges all_of_dated_df dated_df eq_refl)).
Defined.

(** X10. Two selections can be applied in either order: the result is the
    same table, whose rows are those that satisfy both. *)
Theorem filters_commute (S1 S2 : Selection) (df : DataFrame) :
  apply_filters S2 (apply_filters S1 df) = apply_filters S1 (apply_filters S2 df) ∧
  rows (apply_filters S2 (apply_filters S1 df)) =
    filter (λ r, selected S1 (has_date df) r ∧ selected S2 (has_date df) r) (rows df).
Proof.
  assert (Hrows : ∀ Sa Sb,
            rows (apply_filters Sb (apply_filters Sa df)) =
            filter (λ r, selected Sa (has_date df) r ∧ selected Sb (has_date df) r) (rows df)).
  { intros Sa Sb. rewrite (apply_filters_rows Sb), apply_filters_has_date.
    rewrite apply_filters_rows, list_filter_filter.
    apply list_filter_iff. intros r. tauto. }
  split; [|apply Hrows].
  apply DataFrame_eq.
  - by rewrite !apply_filters_has_date.
  - rewrite !Hrows. apply list_filter_iff. intros r. tauto.
Qed.

(** ** Column names *)

Ltac by_cases_on_ascii c :=
  destruct c as [[] [] [] [] [] [] [] []]; vm_compute; try reflexivity; try discriminate.

Lemma normal_char_fixed (c : ascii) :
  space_to_underscore (to_lower (space_to_underscore (to_lower c)))
  = space_to_underscore (to_lower c).
Proof. by_cases_on_ascii c. Qed.

Lemma normal_char_shape (c : ascii) :
  is_upper (space_to_underscore (to_lower c)) = false ∧
  space_to_underscore (to_lower c) ≠ " "%char.
Proof. split; by_cases_on_ascii c. Qed.

Lemma normal_char_not_space (c : ascii) :
  is_space c = false → is_space (space_to_underscore (to_lower c)) = false.
Proof. by_cases_on_ascii c. Qed.

Lemma lstrip_starts_clean (s : string) : starts_clean (lstrip s).
Proof.
  induction s as [|c s IH]; cbn; [done|].
  destruct (is_space c) eqn:Hc; [done|]. cbn. done.
Qed.

Lemma lstrip_clean (s : string) : starts_clean s → lstrip s = s.
Proof. destruct s as [|c s]; cbn; [done|]. by intros ->. Qed.

Lemma rstrip_starts_clean (s : string) : starts_clean s → starts_clean (rstrip s).
Proof.
  destruct s as [|c s]; cbn; [done|]. intros Hc.
  destruct (rstrip s); [by rewrite Hc|done].
Qed.

Lemma rstrip_fixed_cons (c : ascii) (s : string) :
  rstrip (String c s) = String c s ↔
  (s = EmptyString ∧ is_space c = false) ∨ (s ≠ EmptyString ∧ rstrip s = s).
Proof.
  cbn. destruct (rstrip s) as [|c' t] eqn:Hr.
  - destruct (is_space c) eqn:Hc; split.
    + done.
    + intros [[_ ?]|[Hne Hs]]; [done|]. by rewrite <- Hs in Hne.
    + intros [= <-]. by left.
    + intros [[-> _]|[Hne Hs]]; [done|]. by rewrite <- Hs in Hne.
  - split.
    + intros [= <-]. right. by split.
    + intros [[-> _]|[_ <-]]; [done|done].
Qed.

Lemma rstrip_idem (s : string) : rstrip (rstrip s) = rstrip s.
Proof.
  induction s as [|c s IH]; [done|].
  cbn [rstrip]. destruct (rstrip s) as [|c' t] eqn:Hr.
  - destruct (is_space c) eqn:Hc; [done|]. cbn. by rewrite Hc.
  - apply rstrip_fixed_cons. right. by split.
Qed.

Lemma map_chars_empty f s : map_chars f s = EmptyString ↔ s = EmptyString.
Proof. destruct s; cbn; split; congruence. Qed.

Lemma rstrip_map_chars (f : ascii → ascii) (s : string) :
  (∀ c, is_space c = false → is_space (f c) = false) →
  rstrip s = s → rstrip (map_chars f s) = map_chars f s.
Proof.
  intros Hf. induction s as [|c s IH]; [done|].
  intros [[-> Hc]|[Hne Hs]]%rstrip_fixed_cons; cbn [map_chars];
    apply rstrip_fixed_cons.
  - left. split; [done|by apply Hf].
  - right. split; [by rewrite map_chars_empty|by apply IH].
Qed.

Lemma starts_clean_map_chars (f : ascii → ascii) (s : string) :
  (∀ c, is_space c = false → is_space (f c) = false) →
  starts_clean s → starts_clean (map_chars f s).
Proof. intros Hf. destruct s as [|c s]; cbn; [done|]. apply Hf. Qed.

Lemma map_chars_compose (f g : ascii → ascii) (s : string) :
  map_chars f (map_chars g s) = map_chars (λ c, f (g c)) s.
Proof. induction s as [|c s IH]; cbn; [done|]. by rewrite IH. Qed.

Lemma map_chars_ext (f g : ascii → ascii) (s : string) :
  (∀ c, f c = g c) → map_chars f s = map_chars g s.
Proof. intros Hfg. induction s as [|c s IH]; cbn; [done|]. by rewrite Hfg, IH. Qed.

Lemma list_ascii_of_map_chars (f : ascii → ascii) (s : string) :
  list_ascii_of_string (map_chars f s) = f <$> list_ascii_of_string s.
Proof. induction s as [|c s IH]; cbn; [done|]. by rewrite IH. Qed.

(** X12. Renaming a column is idempotent: a name already renamed is left as
    it is.  A renamed name has no capital letter and no space, and neither
    begins nor ends with a blank; so ["  Product line "] becomes
    ["product_line"], and a header cell [" Date "] makes the table count as
    one with a date column. *)
Theorem normalize_column_idempotent (s : string) :
  normalize_column (normalize_column s) = normalize_column s ∧
  Forall (λ c, is_upper c = false ∧ c ≠ " "%char)
         (list_ascii_of_string (normalize_column s)) ∧
  strip (normalize_column s) = normalize_column s ∧
  normalize_column "  Product line " = "product_line"%string ∧
  has_column "date" ["Invoice ID"; " Date "; "Total"]%string = true.
Proof.
  assert (Hshape : ∀ t, normalize_column t
                        = map_chars (λ c, space_to_underscore (to_lower c)) (strip t)).
  { intros t. unfold normalize_column, lower. apply map_chars_compose. }
  assert (Hstrip : strip (normalize_column s) = normalize_column s).
  { rewrite Hshape. unfold strip at 1. rewrite lstrip_clean.
    - apply rstrip_map_chars; [apply normal_char_not_space|]. apply rstrip_idem.
    - apply starts_clean_map_chars; [apply normal_char_not_space|].
      apply rstrip_starts_clean, lstrip_starts_clean. }
  split_and!; [| |done|done|done].
  - rewrite (Hshape (normalize_column s)), Hstrip, Hshape, map_chars_compose.
    apply map_chars_ext, normal_char_fixed.
  - rewrite Hshape, list_ascii_of_map_chars. apply Forall_fmap, Forall_forall.
    intros c _. apply normal_char_shape.
Qed.

(** ** Search and letter case *)

Lemma title_char_lower (b : bool) (c : ascii) :
  (if b then to_lower (to_lower c) else to_upper (to_lower c))
  = (if b then to_lower c else to_upper c) ∧
  is_cased (to_lower c) = is_cased c ∧
  to_lower (if b then to_lower c else to_upper c) = to_lower c.
Proof. destruct b; split_and!; by_cases_on_ascii c. Qed.

Lemma title_from_lower (b : bool) (s : string) :
  title_from b (lower s) = title_from b s.
Proof.
  revert b. induction s as [|c s IH]; intros b; cbn; [done|].
  destruct (title_char_lower b c) as (-> & -> & _). f_equal. apply IH.
Qed.

Lemma lower_title_from (b : bool) (s : string) : lower (title_from b s) = lower s.
Proof.
  revert b. induction s as [|c s IH]; intros b; cbn; [done|].
  destruct (title_char_lower b c) as (_ & _ & ->). f_equal. apply IH.
Qed.

Lemma title_eq_iff (s t : string) : title s = title t ↔ lower s = lower t.
Proof.
  unfold title. split; intros Heq.
  - by rewrite <- (lower_title_from false s), Heq, lower_title_from.
  - by rewrite <- (title_from_lower false s), Heq, title_from_lower.
Qed.

(** X13. On ASCII text the search ignores letter case and nothing else:
    an entered name matches a row exactly when the two texts are equal once
    their letters are lowered, on the whole text; and two entries that
    differ only in letter case have the same outcome, messages or error. *)
Theorem search_ignores_case :
  (∀ (key : Row → option string) (name : string) (r : Row),
     ascii_text name = true → from_option ascii_text true (key r) = true →
     (matches key (title name) r ↔ ∃ v, key r = Some v ∧ lower v = lower name)) ∧
  (∀ (dts : text_dtypes) (df : DataFrame) (c1 c2 p1 p2 : string),
     ascii_text c1 = true → ascii_text c2 = true →
     ascii_text p1 = true → ascii_text p2 = true →
     lower c1 = lower c2 → lower p1 = lower p2 →
     search_city_and_product_str dts df c1 p1 = search_city_and_product_str dts df c2 p2).
Proof.
  split.
  - intros key name r _ _. unfold matches. destruct (key r) as [v|]; cbn.
    + split.
      * intros [= Hv]. exists v. split; [done|]. by apply title_eq_iff.
      * intros (v' & [= <-] & Hv). f_equal. by apply title_eq_iff.
    + split; [done|]. by intros (? & [=] & _).
  - intros dts df c1 c2 p1 p2 _ _ _ _ Hc%title_eq_iff Hp%title_eq_iff.
    unfold search_city_and_product_str. by rewrite Hc, Hp.
Qed.

Lemma search_ignores_case_witness :
  ascii_text "YANGON" = true ∧ ascii_text "yangon" = true ∧ ascii_text "" = true ∧
  lower "YANGON" = lower "yangon" ∧ lower "" = lower "" ∧
  search_city_and_product_str text_columns example_df "YANGON" ""
    = Ok [success "Yangon" 125].
Proof.
  split_and!; [reflexivity..|].
  rewrite (proj2 search_ignores_case text_columns example_df "YANGON" "yangon" "" ""
             eq_refl eq_refl eq_refl eq_refl eq_refl eq_refl).
  reflexivity.
Defined.

(** ** The tail window away from ties *)






(** ** More on the correlation matrix *)

Section correlation_more.
Local Open Scope R_scope.

Lemma Rsum_scale {B} (a : R) (f : B → R) (l : list B) :
  Rsum ((λ u, a * f u) <$> l) = a * Rsum (f <$> l).
Proof. unfold Rsum. induction l as [|u l IH]; cbn; [lra|]. rewrite IH. lra. Qed.

Lemma Rsum_affine (a b : R) (l : list R) :
  Rsum ((λ u, a * u + b) <$> l) = a * Rsum l + b * INR (length l).
Proof.
  unfold Rsum. induction l as [|u l IH]; [cbn; lra|].
  cbn [fmap list_fmap foldr length]. rewrite IH, S_INR. lra.
Qed.

Lemma Rsum_ext {B} (f g : B → R) (l : list B) :
  (∀ u, f u = g u) → Rsum (f <$> l) = Rsum (g <$> l).
Proof. intros Hfg. f_equal. apply list_fmap_ext. by intros. Qed.

Lemma Rmean_affine (a b : R) (l : list R) :
  l ≠ [] → Rmean ((λ u, a * u + b) <$> l) = a * Rmean l + b.
Proof.
  intros Hl. unfold Rmean. rewrite Rsum_affine, length_fmap.
  assert (INR (length l) ≠ 0).
  { apply not_0_INR. by destruct l. }
  by field.
Qed.

Lemma ssqdm_affine (a b : R) (l : list R) :
  l ≠ [] → ssqdm ((λ u, a * u + b) <$> l) = a * a * ssqdm l.
Proof.
  intros Hl. unfold ssqdm. rewrite Rmean_affine by done.
  rewrite <- list_fmap_compose, <- Rsum_scale.
  apply Rsum_ext. intros u. cbn. lra.
Qed.

Lemma fmap_snd_tagged {A B} (f : A → B) (l : list A) :
  snd <$> ((λ k, (k, f k)) <$> l) = f <$> l.
Proof. induction l as [|u l IH]; cbn; [done|]. by rewrite IH. Qed.

Lemma complete_pairs_affine (a b : R) (x y : list (option R)) :
  affine_of a b x y → complete_pairs x y = (λ u, (u, a * u + b)) <$> present x.
Proof.
  unfold affine_of, complete_pairs, present. intros ->.
  induction x as [|[u|] x IH]; cbn; [done| |done]. by rewrite IH.
Qed.

Lemma pearson_affine (a b : R) (x y : list (option R)) :
  affine_of a b x y → nonzero_variance x → a ≠ 0 →
  pearson x y = Some (if Rlt_dec 0 a then 1 else -1).
Proof.
  unfold nonzero_variance. intros Haff Hvar Ha.
  assert (Hne : present x ≠ []).
  { intros Hnil. apply Hvar. rewrite Hnil. unfold ssqdm, Rsum. done. }
  pose proof (ssqdm_nonneg (present x)) as Hpos.
  rewrite pearson_observed.
  2:{ rewrite (complete_pairs_affine a b) by done. by intros ?%fmap_nil_inv. }
  cbv zeta. rewrite (complete_pairs_affine a b x y Haff).
  rewrite (fmap_fst_tagged (λ u, a * u + b)), (fmap_snd_tagged (λ u, a * u + b)).
  rewrite Rmean_affine, ssqdm_affine by done.
  assert (Hcov : Rsum ((λ p : R * R, (p.1 - Rmean (present x))
                                      * (p.2 - (a * Rmean (present x) + b)))
                         <$> ((λ u, (u, a * u + b)) <$> present x))
                 = a * ssqdm (present x)).
  { unfold ssqdm. rewrite <- list_fmap_compose, <- Rsum_scale.
    apply Rsum_ext. intros u. cbn. lra. }
  rewrite Hcov.
  replace (ssqdm (present x) * (a * a * ssqdm (present x)))
    with (Rsqr (a * ssqdm (present x))) by (unfold Rsqr; lra).
  rewrite sqrt_Rsqr_abs.
  destruct (Rlt_dec 0 a) as [Hlt|Hge].
  - rewrite Rabs_right by nra.
    destruct (Req_dec_T (a * ssqdm (present x)) 0) as [Hz|Hnz]; [nra|].
    f_equal. replace (a * ssqdm (present x) / (a * ssqdm (present x))) with 1 by (by field).
    apply clip_one.
  - rewrite Rabs_left1 by nra.
    destruct (Req_dec_T (- (a * ssqdm (present x))) 0) as [Hz|Hnz]; [nra|].
    f_equal.
    replace (a * ssqdm (present x) / - (a * ssqdm (present x))) with (-1).
    + unfold clip. destruct (Rlt_dec 1 (-1)); [lra|]. destruct (Rlt_dec (-1) (-1)); [lra|done].
    + field. nra.
Qed.

Lemma ssqdm_constant_elem (a : R) (l : list R) :
  Forall (λ v, v = a) l → Rsum ((λ u, (u - a) * (u - a)) <$> l) = 0.
Proof.
  unfold Rsum. induction 1 as [|u k -> _ IH]; cbn; [done|]. rewrite IH. lra.
Qed.

Lemma ssqdm_constant (a : R) (l : list R) : Forall (λ v, v = a) l → ssqdm l = 0.
Proof.
  intros Hall. destruct l as [|v l]; [unfold ssqdm, Rsum; done|].
  assert (Hmean : Rmean (v :: l) = a).
  { assert (Hmap : v :: l = (λ u, 0 * u + a) <$> (v :: l)).
    { induction Hall as [|u k Hu _ IH]; cbn; [done|]. rewrite <- IH. f_equal. lra. }
    rewrite Hmap, Rmean_affine by done. lra. }
  unfold ssqdm. rewrite Hmean. by apply ssqdm_constant_elem.
Qed.

Lemma pearson_diag_undefined (x : list (option R)) :
  ¬ nonzero_variance x → pearson x x = None.
Proof.
  unfold nonzero_variance. intros Hvar.
  assert (Hz : ssqdm (present x) = 0).
  { destruct (Req_dec_T (ssqdm (present x)) 0); [done|]. by destruct Hvar. }
  destruct (present x) as [|u l] eqn:Hp.
  - unfold pearson. by rewrite complete_pairs_diag, Hp.
  - rewrite pearson_observed.
    + cbv zeta. rewrite complete_pairs_diag, fmap_fst_diag, fmap_snd_diag, Hp, Hz.
      rewrite Rmult_0_l, sqrt_0. by destruct (Req_dec_T 0 0).
    + by rewrite complete_pairs_diag, Hp.
Qed.

Lemma entry_corr_columns (cols : list (list (option R))) (i j : nat) x y :
  cols !! i = Some x → cols !! j = Some y → entry (corr cols) i j = Some (pearson x y).
Proof.
  intros Hx Hy. rewrite entry_corr.
  pose proof (lookup_lt_Some _ _ _ Hx). pose proof (lookup_lt_Some _ _ _ Hy).
  rewrite decide_True by done. f_equal.
  unfold col_at. destruct (Nat.max_spec i j) as [[? ->]|[? ->]];
    [rewrite Nat.min_l by lia|rewrite Nat.min_r by lia]; rewrite Hx, Hy; cbn;
    [apply pearson_sym|done].
Qed.

End correlation_more.

(** X15. The diagonal entry of a numeric column is undefined exactly when
    the cells present in it have zero variance; in particular it is
    undefined, not 1, for a column whose present cells are all equal. *)
Theorem correlation_constant_column (df : DataFrame) (i : nat) (x : list (option R)) :
  select_dtypes_number df !! i = Some x →
  (entry (correlation_matrix df) i i = Some None ↔ ¬ nonzero_variance x) ∧
  (∀ a, Forall (λ v, v = a) (present x) → entry (correlation_matrix df) i i = Some None).
Proof.
  intros Hx. unfold correlation_matrix.
  rewrite (entry_corr_columns _ i i x x Hx Hx).
  assert (Hiff : Some (pearson x x) = Some None ↔ ¬ nonzero_variance x).
  { split.
    - intros Hnone Hvar. rewrite (pearson_diag x Hvar) in Hnone. done.
    - intros Hvar. by rewrite pearson_diag_undefined. }
  split; [done|].
  intros a Hall. apply Hiff. intros Hvar. apply Hvar. by eapply ssqdm_constant.
Qed.

Lemma correlation_constant_column_witness :
  select_dtypes_number affine_df !! 1%nat = Some [Some 7%R; Some 7%R] ∧
  Forall (λ v, v = 7%R) (present [Some 7%R; Some 7%R]) ∧
  entry (correlation_matrix affine_df) 1 1 = Some None.
Proof.
  assert (Hcol : select_dtypes_number affine_df !! 1%nat = Some [Some 7%R; Some 7%R])
    by reflexivity.
  assert (Hall : Forall (λ v, v = 7%R) (present [Some 7%R; Some 7%R]))
    by (cbn; repeat constructor).
  split; [exact Hcol|]. split; [exact Hall|].
  exact (proj2 (correlation_constant_column affine_df 1 _ Hcol) 7%R Hall).
Defined.

(** X16. When one numeric column is a fixed multiple of another plus a
    constant on every row (with the same cells missing), and the other
    column varies, their correlation is 1 for a positive factor and -1 for
    a negative one, in both positions of the matrix. *)
Theorem correlation_affine_columns (df : DataFrame) (i j : nat)
    (x y : list (option R)) (a b : R) :
  select_dtypes_number df !! i = Some x →
  select_dtypes_number df !! j = Some y →
  affine_of a b x y → nonzero_variance x → a ≠ 0%R →
  entry (correlation_matrix df) i j = Some (Some (if Rlt_dec 0 a then 1 else -1)%R) ∧
  entry (correlation_matrix df) j i = Some (Some (if Rlt_dec 0 a then 1 else -1)%R).
Proof.
  intros Hx Hy Haff Hvar Ha. unfold correlation_matrix.
  rewrite (entry_corr_columns _ i j x y Hx Hy), (entry_corr_columns _ j i y x Hy Hx).
  rewrite <- (pearson_sym x y). by rewrite (pearson_affine a b x y).
Qed.

Lemma correlation_affine_columns_witness :
  select_dtypes_number affine_df !! 0%nat = Some [Some 1%R; Some 2%R] ∧
  select_dtypes_number affine_df !! 2%nat = Some [Some 3%R; Some 5%R] ∧
  affine_of 2 1 [Some 1%R; Some 2%R] [Some 3%R; Some 5%R] ∧
  nonzero_variance [Some 1%R; Some 2%R] ∧
  entry (correlation_matrix affine_df) 0 2 = Some (Some 1%R).
Proof.
  assert (Hx : select_dtypes_number affine_df !! 0%nat = Some [Some 1%R; Some 2%R])
    by reflexivity.
  assert (Hy : select_dtypes_number affine_df !! 2%nat = Some [Some 3%R; Some 5%R])
    by reflexivity.
  assert (Haff : affine_of 2 1 [Some 1%R; Some 2%R] [Some 3%R; Some 5%R]).
  { unfold affine_of. cbn. repeat f_equal; lra. }
  assert (Hvar : nonzero_variance [Some 1%R; Some 2%R]).
  { unfold nonzero_variance, ssqdm, Rmean, Rsum, present. simpl. lra. }
  assert (Ha : (2 ≠ 0)%R) by lra.
  split; [exact Hx|]. split; [exact Hy|]. split; [exact Haff|]. split; [exact Hvar|].
  rewrite (proj1 (correlation_affine_columns affine_df 0 2 _ _ 2%R 1%R Hx Hy Haff Hvar Ha)).
  destruct (Rlt_dec 0 2) as [_|Hn]; [reflexivity|]. exfalso. apply Hn. lra.
Defined.

(** ** Search, charts and insights together *)



Lemma Sorted_value_le_last (s : Series) (e : string * Z) :
  Sorted value_le (s ++ [e]) → ∀ x, x ∈ s ++ [e] → x.2 ≤ e.2.
Proof.
  intros Hs%Sorted_StronglySorted.
  - apply StronglySorted_app in Hs as (Hall & _ & _).
    intros x [Hx|Hx%list_elem_of_singleton]%elem_of_app; [|by subst].
    apply (Hall x e); [done|by left].
  - intros a b c. unfold value_le. lia.
Qed.

(** X21. The last bar of the product-line chart stands for a product line
    of the largest total: no bar is longer, its length is the total of its
    product line, and it is the sales figure the quick insights report for
    the top product. *)
Theorem last_bar_is_top_product `{ArgSort} (df : DataFrame) (s : Series) (e : string * Z) :
  barh (sales_by_product df) = s ++ [e] →
  (∀ x, x ∈ barh (sales_by_product df) → x.2 ≤ e.2) ∧
  e.2 = total_of product_line e.1 (rows df) ∧
  (∀ ins, quick_insights df = Ok ins → top_product_sales ins = Some e.2).
Proof.
  intros Hbar.
  assert (Hmax : ∀ x, x ∈ barh (sales_by_product df) → x.2 ≤ e.2).
  { rewrite Hbar. apply Sorted_value_le_last. rewrite <- Hbar. apply sort_values_Sorted. }
  assert (Hperm : barh (sales_by_product df) ≡ₚ groupby_sum product_line (rows df))
    by apply sort_values_Permutation.
  assert (Hin : e ∈ groupby_sum product_line (rows df)).
  { rewrite <- Hperm, Hbar. apply elem_of_app. right. by left. }
  split_and!; [done| |].
  - destruct e as [k v]. by apply groupby_sum_entry in Hin as [_ ->].
  - intros ins (_ & _ & _ & -> & _)%quick_insights_Ok.
    destruct e as [k v]. apply (series_max_largest _ k v); [done|].
    intros x Hx. apply (Hmax x). by rewrite Hperm.
Qed.

Lemma last_bar_is_top_product_witness :
  barh (@sales_by_product stable_sort insight_df)
    = [("food"%string, 75)] ++ [("health"%string, 100)] ∧
  ∀ ins, @quick_insights stable_sort insight_df = Ok ins →
         top_product_sales ins = Some 100.
Proof.
  assert (Hbar : barh (@sales_by_product stable_sort insight_df)
                 = [("food"%string, 75)] ++ [("health"%string, 100)])
    by (vm_compute; reflexivity).
  split; [exact Hbar|].
  exact (proj2 (proj2 (@last_bar_is_top_product stable_sort insight_df _ _ Hbar))).
Defined.
